(** * Heightmap renderer of the ao / libfive kernel

    A shallow embedding of [Heightmap::pixels], [Heightmap::recurse] and
    [Heightmap::Render] (heightmap.cpp) together with the interfaces they
    use ([Region], [Tree], [Result]).

    Numeric conventions.
    - Gradient components are IEEE binary64 values ([PrimFloat.float]); the
      arithmetic of the normal packing is the arithmetic of the C++ [double]
      expressions, operation by operation.
    - World coordinates, depths and field values are only ever compared
      (with each other or with zero) by the renderer; they are modelled as
      exact integers in fixed point ([Z]), with an explicit minus infinity
      for the depth image. *)

From Stdlib Require Import ZArith List Bool Lia Arith.
From Stdlib Require Import Floats.PrimFloat Floats.SpecFloat Floats.FloatOps.
Import ListNotations.

Set Implicit Arguments.

(** ** Normal packing (the body of the [run] lambda in [pixels]) *)

Module Pack.

Local Open Scope float_scope.

(** Modelled from the spec: the struct [Gradient] is not part of the sources
    at hand; these are the partial derivatives [dx], [dy], [dz] of one lane,
    as [run] reads them from [gs[i]]. *)
Record Gradient := mkGradient { dx : float; dy : float; dz : float }.

(** [pow(x, 2)], taken as the correctly rounded product [x * x], which is
    what a compiler computes that folds the call into a multiplication. A
    library [pow] or a fused multiply-add can differ from it in the last
    bit on some inputs; only the exact value of a channel depends on
    that. *)
Definition pow2 (x : float) : float := x * x.

(** [double len = sqrt(pow(dx,2) + pow(dy,2) + pow(dz,2))] *)
Definition length (g : Gradient) : float :=
  sqrt (pow2 (dx g) + pow2 (dy g) + pow2 (dz g)).

(** The [double] expression [255 * (c / (2 * len) + 0.5)]. *)
Definition scaled (c len : float) : float := 255 * (c / (2 * len) + 0.5).

Local Close Scope float_scope.
Local Open Scope Z_scope.

(** Truncation toward zero of a binary64 value; [None] for NaN and the
    infinities. *)
Definition trunc_sf (f : spec_float) : option Z :=
  match f with
  | S754_zero _ => Some 0
  | S754_finite s m e =>
      let a := if 0 <=? e then Z.shiftl (Z.pos m) e
               else Z.shiftr (Z.pos m) (- e) in
      Some (if s then - a else a)
  | S754_infinity _ => None
  | S754_nan => None
  end.

(** Conversion [double -> uint32_t]: the value is truncated toward zero; the
    conversion is undefined ([None]) when the truncated value is not
    representable in 32 unsigned bits, which includes NaN and infinities. *)
Definition to_uint32 (x : float) : option Z :=
  match trunc_sf (Prim2SF x) with
  | Some n => if (0 <=? n) && (n <? 2 ^ 32) then Some n else None
  | None => None
  end.

(** 32-bit unsigned wrap-around. *)
Definition wrap32 (n : Z) : Z := n mod 2 ^ 32.

(** [(0xff << 24) | (dz << 16) | (dy << 8) | dx] on [uint32_t] operands. *)
Definition combine (cx cy cz : Z) : Z :=
  Z.lor (Z.lor (Z.lor (wrap32 (Z.shiftl 255 24)) (wrap32 (Z.shiftl cz 16)))
               (wrap32 (Z.shiftl cy 8)))
        cx.

(** One iteration of the loop in [run], up to the store: [None] when one of
    the three conversions to [uint32_t] is undefined. *)
Definition pack (g : Gradient) : option Z :=
  let len := length g in
  match to_uint32 (scaled (dx g) len),
        to_uint32 (scaled (dy g) len),
        to_uint32 (scaled (dz g) len) with
  | Some cx, Some cy, Some cz => Some (combine cx cy cz)
  | _, _, _ => None
  end.






End Pack.

(** ** Regions *)

Module Region.

Local Open Scope Z_scope.

(** Modelled from the spec: the type [Interval] (interval.hpp is not part of
    the sources at hand), a pair of [lower] and [upper] bounds, as returned by
    interval evaluation and as stored for each axis of a region. *)
Record Interval := mkInterval { lower : Z; upper : Z }.

(** Modelled from the spec: the class [Region::DiscreteRange] is not part of
    the sources at hand. An axis descriptor holds a min coordinate
    ([origin]), a voxel resolution ([size], the number of voxels) and an
    extent, kept here as half the voxel pitch ([hstep]) so that voxel centres
    are exact; [min] is the index of its first voxel in the output image, as
    used by [depth(r.Y.min + j, r.X.min + i)]. *)
Record DiscreteRange := mkRange {
  origin : Z;
  hstep : Z;
  min : nat;
  size : nat
}.

(** Modelled from the spec: [r.X.interval], the bounding interval of an
    axis. *)
Definition interval (a : DiscreteRange) : Interval :=
  mkInterval (origin a) (origin a + 2 * hstep a * Z.of_nat (size a)).

(** Modelled from the spec: [r.X.pos(i)], the coordinate of the centre of
    voxel [i] of the axis. *)
Definition pos (a : DiscreteRange) (i : nat) : Z :=
  origin a + hstep a * (2 * Z.of_nat i + 1).

(** Modelled from the spec: an axis is split into two halves; the second one
    has the higher coordinates. *)
Definition split_range (a : DiscreteRange) : DiscreteRange * DiscreteRange :=
  let half := (size a / 2)%nat in
  (mkRange (origin a) (hstep a) (min a) half,
   mkRange (origin a + 2 * hstep a * Z.of_nat half) (hstep a)
           (min a + half) (size a - half)).

(** Modelled from the spec: a region is three independent axis
    descriptors. *)
Record Region := mkRegion {
  X : DiscreteRange;
  Y : DiscreteRange;
  Z : DiscreteRange
}.

(** Modelled from the spec: [r.voxels()], the total voxel count. *)
Definition voxels (r : Region) : nat :=
  (size (X r) * size (Y r) * size (Z r))%nat.

(** Modelled from the spec: [r.canSplit()]; a region with one voxel per axis
    cannot be split further. *)
Definition canSplit (r : Region) : bool :=
  (1 <? size (X r))%nat || (1 <? size (Y r))%nat || (1 <? size (Z r))%nat.

(** Modelled from the spec: [r.split()] cuts the largest axis, ties going
    to X before Y before Z; the half with the higher coordinates is the
    second component. *)
Definition split (r : Region) : Region * Region :=
  if ((size (Y r) <? size (Z r)) && (size (X r) <? size (Z r)))%nat then
    let rz := split_range (Z r) in
    (mkRegion (X r) (Y r) (fst rz), mkRegion (X r) (Y r) (snd rz))
  else if (size (X r) <? size (Y r))%nat then
    let ry := split_range (Y r) in
    (mkRegion (X r) (fst ry) (Z r), mkRegion (X r) (snd ry) (Z r))
  else
    let rx := split_range (X r) in
    (mkRegion (fst rx) (Y r) (Z r), mkRegion (snd rx) (Y r) (Z r)).

(** The three axis intervals handed to interval evaluation. *)
Definition Box : Type := Interval * Interval * Interval.

Definition box (r : Region) : Box :=
  (interval (X r), interval (Y r), interval (Z r)).

(** A point lies in a box. *)
Definition within (i : Interval) (c : BinNums.Z) : Prop :=
  lower i <= c <= upper i.

Definition inside (b : Box) (x y z : BinNums.Z) : Prop :=
  within (fst (fst b)) x /\ within (snd (fst b)) y /\ within (snd b) z.

(** Modelled from the spec: the macro [REGION_ITERATE_XYZ(r)], three nested
    loops over the voxel indices [i] (X, outermost), [j] (Y) and [k] (Z,
    innermost); this is the order in which [Tree::eval(Region)] flattens its
    results. *)
Definition iterate_xyz (r : Region) : list (nat * nat * nat) :=
  flat_map (fun i =>
    flat_map (fun j =>
      map (fun k => (i, j, k)) (seq 0 (size (Z r))))
      (seq 0 (size (Y r))))
    (seq 0 (size (X r))).

End Region.

(** ** The evaluator's result buffer (result.hpp) *)

Module Result.

(** [float f[256]] (or [__m256 mf[32]], eight lanes each): the number of
    lanes of every array of a [Result]. *)
Definition lanes : nat := 256.

(** [void set(float v, size_t index) { f[index] = v; }] on an array seen as
    a function of the lane index. *)
Definition set {A : Type} (v : A) (index : nat) (f : nat -> A) : nat -> A :=
  fun i => if Nat.eqb i index then v else f i.

(** [float get(size_t index) const { return f[index]; }] *)
Definition get {A : Type} (index : nat) (f : nat -> A) : A := f index.

End Result.

(** ** Images *)

Module Image.

Local Open Scope Z_scope.

(** Modelled from the spec: the types [DepthImage] and [NormalImage] are
    declared in heightmap.hpp, which is not part of the sources at hand; they
    are dense two-dimensional arrays. A value of the depth image is a
    [double] that starts at minus infinity. *)
Inductive Depth := NegInf | Fin (z : Z).

(** [d < z] for a finite [z]. *)
Definition ltb (d : Depth) (z : Z) : bool :=
  match d with NegInf => true | Fin c => c <? z end.

(** [d >= z] for a finite [z]. *)
Definition geb (d : Depth) (z : Z) : bool :=
  match d with NegInf => false | Fin c => z <=? c end.

(** [d == z] for a finite [z]. *)
Definition eqb (d : Depth) (z : Z) : bool :=
  match d with NegInf => false | Fin c => c =? z end.

(** [max(d, z)] for a finite [z], the coefficient-wise [block.max(z)]. *)
Definition max (d : Depth) (z : Z) : Depth :=
  match d with NegInf => Fin z | Fin c => Fin (Z.max c z) end.

(** The order of depth values. *)
Definition le (a b : Depth) : Prop :=
  match a, b with
  | NegInf, _ => True
  | Fin _, NegInf => False
  | Fin x, Fin y => x <= y
  end.

(** The larger of two depth values. *)
Definition join (a b : Depth) : Depth :=
  match a, b with
  | NegInf, _ => b
  | _, NegInf => a
  | Fin x, Fin y => Fin (Z.max x y)
  end.

(** A dense two-dimensional array, indexed as [img(row, col)]. *)
Definition Image (A : Type) : Type := nat -> nat -> A.

(** [img(row, col) = v] *)
Definition write {A : Type} (row col : nat) (v : A) (img : Image A) : Image A :=
  fun y x => if (Nat.eqb y row && Nat.eqb x col)%bool then v else img y x.

(** Membership of [(y, x)] in the block
    [img.block(row0, col0, rows, cols)]. *)
Definition in_block (row0 col0 rows cols : nat) (y x : nat) : bool :=
  ((row0 <=? y) && (y <? row0 + rows) && (col0 <=? x) && (x <? col0 + cols))%nat.

(** [(block >= z).all()] *)
Definition block_all_ge (img : Image Depth) (row0 col0 rows cols : nat) (z : Z)
  : bool :=
  forallb (fun j => forallb (fun i => geb (img (row0 + j) (col0 + i))%nat z)
                            (seq 0 cols))
          (seq 0 rows).

(** [block = block.max(z)] *)
Definition block_max (img : Image Depth) (row0 col0 rows cols : nat) (z : Z)
  : Image Depth :=
  fun y x => if in_block row0 col0 rows cols y x then max (img y x) z
             else img y x.

End Image.

(** ** The renderer (heightmap.cpp) *)

Module Heightmap.

Import Region.
Import Image.

(** A point handed to the evaluator. *)
Definition Point : Type := (BinNums.Z * BinNums.Z * BinNums.Z)%type.

(** What a run of the renderer does, in order: the calls it makes on the
    evaluator and on the cancellation flag, and its image writes. *)
Inductive Event :=
| Load (b : bool)                   (* abort.load() returned b *)
| Enter (r : Region)                (* recurse was called on r *)
| EvalVoxels (r : Region)           (* t->eval(r) *)
| EvalInterval (r : Region)         (* t->eval(r.X.interval, ...) *)
| SetPoint (idx : nat)              (* xs[idx], ys[idx], setPoint(.., idx) *)
| EvalGradients (n : nat)           (* t->evalCore<Gradient>(n) *)
| WriteDepth (row col : nat) (old : Depth) (z : BinNums.Z)
                                    (* depth(row, col) = z, over old *)
| WriteNormal (row col : nat) (v : BinNums.Z)
                                    (* norm(row, col) = v *)
| Fill (r : Region)                 (* block = block.max(top of r) *)
| Push                              (* t->push() *)
| Pop                               (* t->pop() *)
| AssertFailed.                     (* assert(r.canSplit()) failed *)

(** Everything the three functions read and write.
    - [depth], [norm]: the two images.
    - [staged], [active], [last]: the evaluator behind [Tree* t]; the points
      staged by [setPoint<Gradient>], the stack of boxes for which [push]
      deactivated nodes, and the box of the most recent interval evaluation.
    - [xs], [ys], [index], [norm_count]: the locals of [pixels]; the arrays
      [xs] and [ys] are not initialised by the source, their content at entry
      is whatever the state holds.
    - [loads]: how many times the cancellation flag has been read.
    - [trace]: the events so far, oldest first. *)
Record State := mkState {
  depth : Image Depth;
  norm : Image BinNums.Z;
  staged : nat -> Point;
  active : list Box;
  last : Box;
  xs : nat -> nat;
  ys : nat -> nat;
  index : nat;
  norm_count : nat;
  loads : nat;
  trace : list Event
}.

Definition set_depth (f : Image Depth) (s : State) : State :=
  mkState f (norm s) (staged s) (active s) (last s) (xs s) (ys s) (index s)
          (norm_count s) (loads s) (trace s).

Definition set_norm (f : Image BinNums.Z) (s : State) : State :=
  mkState (depth s) f (staged s) (active s) (last s) (xs s) (ys s) (index s)
          (norm_count s) (loads s) (trace s).

Definition set_staged (f : nat -> Point) (s : State) : State :=
  mkState (depth s) (norm s) f (active s) (last s) (xs s) (ys s) (index s)
          (norm_count s) (loads s) (trace s).

Definition set_active (a : list Box) (s : State) : State :=
  mkState (depth s) (norm s) (staged s) a (last s) (xs s) (ys s) (index s)
          (norm_count s) (loads s) (trace s).

Definition set_last (b : Box) (s : State) : State :=
  mkState (depth s) (norm s) (staged s) (active s) b (xs s) (ys s) (index s)
          (norm_count s) (loads s) (trace s).

Definition set_xs (f : nat -> nat) (s : State) : State :=
  mkState (depth s) (norm s) (staged s) (active s) (last s) f (ys s) (index s)
          (norm_count s) (loads s) (trace s).

Definition set_ys (f : nat -> nat) (s : State) : State :=
  mkState (depth s) (norm s) (staged s) (active s) (last s) (xs s) f (index s)
          (norm_count s) (loads s) (trace s).

Definition set_index (n : nat) (s : State) : State :=
  mkState (depth s) (norm s) (staged s) (active s) (last s) (xs s) (ys s) n
          (norm_count s) (loads s) (trace s).

Definition set_norm_count (n : nat) (s : State) : State :=
  mkState (depth s) (norm s) (staged s) (active s) (last s) (xs s) (ys s)
          (index s) n (loads s) (trace s).

Definition set_loads (n : nat) (s : State) : State :=
  mkState (depth s) (norm s) (staged s) (active s) (last s) (xs s) (ys s)
          (index s) (norm_count s) n (trace s).

Definition emit (e : Event) (s : State) : State :=
  mkState (depth s) (norm s) (staged s) (active s) (last s) (xs s) (ys s)
          (index s) (norm_count s) (loads s) (trace s ++ [e]).

(** The +Z-facing colour written by [Render] when clipping. *)
Definition PLUS_Z : BinNums.Z := 0xffff7f7f%Z.

(** [r.Z.pos(r.Z.size - 1)], the highest voxel centre of a region. On an
    empty Z axis the index of the source wraps around; no voxel is evaluated
    and no pixel is written in that case. *)
Definition top (r : Region) : BinNums.Z := pos (Z r) (size (Z r) - 1).

(** *** Scenes used to run the renderer

    A half-space [z < h] seen from above, with its exact interval bound and
    a constant gradient; the evaluators ignore the activation stack. *)

Definition slab_F (h : BinNums.Z) (act : list Box) (x y z : BinNums.Z)
  : BinNums.Z := (z - h)%Z.

Definition slab_I (h : BinNums.Z) (act : list Box) (b : Box) : Interval :=
  mkInterval (lower (snd b) - h)%Z (upper (snd b) - h)%Z.

Definition up_G (act : list Box) (x y z : BinNums.Z) : Pack.Gradient :=
  Pack.mkGradient 0 0 1.

Definition side_G (act : list Box) (x y z : BinNums.Z) : Pack.Gradient :=
  Pack.mkGradient 1 0 0.

(** The gradient of a field that is constant around every point. *)
Definition flat_G (act : list Box) (x y z : BinNums.Z) : Pack.Gradient :=
  Pack.mkGradient 0 0 0.

(** A post over the first pixel column, solid at every height, standing on
    a slab [z < h]. *)
Definition post_F (h : BinNums.Z) (act : list Box) (x y z : BinNums.Z)
  : BinNums.Z := if (x <=? 2)%Z then (-1)%Z else (z - h)%Z.

Definition post_I (h : BinNums.Z) (act : list Box) (b : Box) : Interval :=
  let ix := fst (fst b) in
  let iz := snd b in
  if (upper ix <=? 2)%Z then mkInterval (-1) (-1)
  else mkInterval (Z.min (-1) (lower iz - h)) (Z.max (-1) (upper iz - h)).

(** An interval evaluation that answers [[lo, hi]] for every box. *)
Definition fixed_I (lo hi : BinNums.Z) (act : list Box) (b : Box) : Interval :=
  mkInterval lo hi.

(** An axis of [n] voxels of pitch 2 starting at the origin. *)
Definition axis (n : nat) : DiscreteRange := mkRange 0 1 0 n.

(** A region of [nx * ny * nz] voxels. *)
Definition grid (nx ny nz : nat) : Region :=
  mkRegion (axis nx) (axis ny) (axis nz).

(** A cancellation flag that is never set, and one that is set from the
    [n]-th read on. *)
Definition never : nat -> bool := fun _ => false.

Definition from (n : nat) : nat -> bool := fun i => n <=? i.

Definition zero_u32 : float -> BinNums.Z := fun _ => 0%Z.

(** An evaluator that has not been used, and empty images. *)
Definition start : State :=
  mkState (fun _ _ => NegInf) (fun _ _ => 0%Z) (fun _ => (0, 0, 0)%Z) []
          (mkInterval 0 0, mkInterval 0 0, mkInterval 0 0)
          (fun _ => 0) (fun _ => 0) 0 0 0 [].

Section Renderer.

(** [Result::count<double>()], the largest voxel batch of [Tree::eval]. *)
Variable count_double : nat.

(** [Result::count<Gradient>()], bound to [NUM_POINTS] in [pixels]. *)
Variable NUM_POINTS : nat.

(** Modelled from the spec: the evaluator [Tree] is not part of the sources
    at hand. [evalF act x y z] is the field value at a point ([evalFloat]),
    [evalI act b] the bound over a box ([evalInterval]) and [evalG act x y z]
    the partial derivatives at a point ([evalGradient]); each one skips the
    nodes deactivated for the boxes [act] pushed and not yet popped. *)
Variable evalF : list Box -> BinNums.Z -> BinNums.Z -> BinNums.Z -> BinNums.Z.
Variable evalI : list Box -> Box -> Interval.
Variable evalG : list Box -> BinNums.Z -> BinNums.Z -> BinNums.Z -> Pack.Gradient.

(** What a conversion [double -> uint32_t] yields on the platform where the
    language leaves it undefined. *)
Variable undef_u32 : float -> BinNums.Z.

(** The successive values read from the cancellation flag
    [const std::atomic<bool>& abort], which another thread may set at any
    time: [abort n] is the result of the [n]-th [abort.load()]. *)
Variable abort : nat -> bool.

Local Open Scope Z_scope.

(** [uint32_t c = 255 * (...)] *)
Definition cast_u32 (x : float) : BinNums.Z :=
  match Pack.to_uint32 x with
  | Some n => n
  | None => Pack.wrap32 (undef_u32 x)
  end.

(** The colour stored by [run] for one gradient. *)
Definition colour (g : Pack.Gradient) : BinNums.Z :=
  let len := Pack.length g in
  let dx := cast_u32 (Pack.scaled (Pack.dx g) len) in
  let dy := cast_u32 (Pack.scaled (Pack.dy g) len) in
  let dz := cast_u32 (Pack.scaled (Pack.dz g) len) in
  Pack.combine dx dy dz.

Local Close Scope Z_scope.

(** Modelled from the spec: [Tree::eval(const Region&)], the field values of
    all voxels of a region, flattened in [REGION_ITERATE_XYZ] order; voxel
    [k] of a column is the one at [r.Z.pos(r.Z.size - k - 1)], as [pixels]
    reads it back. *)
Definition eval_region (act : list Box) (r : Region) : list BinNums.Z :=
  map (fun '(i, j, k) =>
         evalF act (pos (X r) i) (pos (Y r) j) (pos (Z r) (size (Z r) - k - 1)))
      (iterate_xyz r).

(** Modelled from the spec: [Tree::setPoint<Gradient>(x, y, z, index)] stores
    a point in lane [index] of the coordinate results. *)
Definition setPoint (x y z : BinNums.Z) (idx : nat) (s : State) : State :=
  emit (SetPoint idx) (set_staged (Result.set (x, y, z) idx (staged s)) s).

(** Modelled from the spec: [Tree::evalCore<Gradient>(count)], the gradients
    at the first [count] staged points. *)
Definition evalCore (s : State) : nat -> Pack.Gradient :=
  fun i => let '(x, y, z) := Result.get i (staged s) in
           evalG (active s) x y z.

(** Modelled from the spec: [Tree::push()] deactivates nodes for the box of
    the most recent interval evaluation. *)
Definition push (s : State) : State :=
  emit Push (set_active (last s :: active s) s).

(** Modelled from the spec: [Tree::pop()] restores the activation state of
    before the matching [push]. *)
Definition pop (s : State) : State :=
  emit Pop (set_active (tl (active s)) s).

(** Modelled from the spec: [Tree::eval(Interval, Interval, Interval)]; the
    evaluator remembers the box for a later [push]. *)
Definition eval_interval (r : Region) (s : State) : Interval * State :=
  (evalI (active s) (box r), emit (EvalInterval r) (set_last (box r) s)).

(** [a[i] = v] on a local array. *)
Definition store {A : Type} (a : nat -> A) (i : nat) (v : A) : nat -> A :=
  fun n => if Nat.eqb n i then v else a n.

(** The lambda [run] of [pixels]: evaluates the staged gradients, stores one
    colour per staged pixel and empties the staging area. *)
Definition run (s : State) : State :=
  let gs := evalCore s in
  let s1 := emit (EvalGradients (norm_count s)) s in
  let s2 :=
    fold_left
      (fun s i =>
         emit (WriteNormal (ys s i) (xs s i) (colour (gs i)))
              (set_norm (write (ys s i) (xs s i) (colour (gs i)) (norm s)) s))
      (seq 0 (norm_count s)) s1 in
  set_norm_count 0 s2.

(** The body of the innermost loop of [pixels] for voxel [(i, j, k)]; the
    boolean tells whether the [break] was taken. *)
Definition voxel (r : Region) (out : list BinNums.Z) (i j k : nat) (s : State)
  : State * bool :=
  let v := nth (index s) out 0%Z in
  let s := set_index (S (index s)) s in
  if (v <? 0)%Z then
    let z := pos (Z r) (size (Z r) - k - 1) in
    let row := min (Y r) + j in
    let col := min (X r) + i in
    if ltb (depth s row col) z then
      let s := emit (WriteDepth row col (depth s row col) z)
                    (set_depth (write row col (Fin z) (depth s)) s) in
      let s := set_index (index s + (size (Z r) - k - 1)) s in
      let s := set_xs (store (xs s) (norm_count s) col) s in
      let s := set_ys (store (ys s) (norm_count s) row) s in
      let s := setPoint (pos (X r) i) (pos (Y r) j) (pos (Z r) k)
                        (norm_count s) s in
      let s := set_norm_count (S (norm_count s)) s in
      let s := if Nat.eqb (norm_count s) NUM_POINTS then run s else s in
      (s, true)
    else (s, false)
  else (s, false).

(** The innermost loop, [for (k = ...; k < r.Z.size; ++k)], with [n]
    iterations left. *)
Fixpoint column (r : Region) (out : list BinNums.Z) (i j : nat) (n k : nat)
  (s : State) : State :=
  match n with
  | O => s
  | S n' =>
      let (s', broke) := voxel r out i j k s in
      if broke then s' else column r out i j n' (S k) s'
  end.

(** [static void pixels(Tree* t, const Region& r, DepthImage& depth,
    NormalImage& norm)] *)
Definition pixels (r : Region) (s : State) : State :=
  let out := eval_region (active s) r in
  let s := emit (EvalVoxels r) s in
  let s := set_index 0 s in
  let s := set_norm_count 0 s in
  let s :=
    fold_left
      (fun s i =>
         fold_left (fun s j => column r out i j (size (Z r)) 0 s)
                   (seq 0 (size (Y r))) s)
      (seq 0 (size (X r))) s in
  if 0 <? norm_count s then run s else s.

(** [abort.load()] *)
Definition load (s : State) : bool * State :=
  (abort (loads s), emit (Load (abort (loads s))) (set_loads (S (loads s)) s)).

(** [block = block.max(r.Z.pos(r.Z.size - 1))] *)
Definition fill (r : Region) (s : State) : State :=
  emit (Fill r)
       (set_depth (block_max (depth s) (min (Y r)) (min (X r))
                             (size (Y r)) (size (X r)) (top r)) s).

(** The body of [recurse], with [rec] standing for the two recursive
    calls. A failed [assert(r.canSplit())] ends the run; it cannot fail when
    the batch width is at least one voxel. *)
Definition recurse_body (rec : Region -> State -> State) (r : Region)
  (s : State) : State :=
  let s := emit (Enter r) s in
  let (stop, s) := load s in
  if stop then s
  else if block_all_ge (depth s) (min (Y r)) (min (X r))
                       (size (Y r)) (size (X r)) (top r) then s
  else if voxels r <=? count_double then pixels r s
  else
    let (out, s) := eval_interval r s in
    if (upper out <? 0)%Z then fill r s
    else if (lower out <=? 0)%Z then
      let s := push s in
      if canSplit r then
        let rs := split r in
        let s := rec (snd rs) s in
        let s := rec (fst rs) s in
        pop s
      else emit AssertFailed s
    else s.

(** [recurse] unfolded [n] times. *)
Fixpoint recurse_fuel (n : nat) (r : Region) (s : State) : State :=
  match n with
  | O => s
  | S n' => recurse_body (recurse_fuel n') r s
  end.

(** [static void recurse(Tree* t, const Region& r, DepthImage& depth,
    NormalImage& norm, const std::atomic<bool>& abort)]; every recursive call
    is on a region with fewer voxels, see [recurse_eq]. *)
Definition recurse (r : Region) (s : State) : State :=
  recurse_fuel (S (voxels r)) r s.

(** [std::pair<DepthImage, NormalImage> Render(Tree* t, Region r,
    const std::atomic<bool>& abort, bool clip)]; the pair returned is
    [(depth, norm)] of the final state. *)
Definition Render (r : Region) (clip : bool) (s : State) : State :=
  let s := set_depth (fun _ _ => NegInf) s in
  let s := set_norm (fun _ _ => 0%Z) s in
  let s := recurse r s in
  if clip then
    set_norm (fun y x => if eqb (depth s y x) (top r) then PLUS_Z
                         else norm s y x) s
  else s.

(** *** Notions used to state the properties *)

(** [s'] extends the trace of [s] by events that all satisfy [Q]. *)
Definition emits (Q : Event -> Prop) (s s' : State) : Prop :=
  exists evs, trace s' = trace s ++ evs /\ Forall Q evs.

(** The events of one call of [pixels]; a point is only ever staged at an
    index below the capacity [NUM_POINTS]. *)
Definition pixel_event (e : Event) : Prop :=
  match e with
  | EvalVoxels _ | WriteDepth _ _ _ _ | EvalGradients _ | WriteNormal _ _ _ =>
      True
  | SetPoint idx => idx < NUM_POINTS
  | _ => False
  end.

(** The state of [recurse] after its call has been recorded and the
    cancellation flag read. *)
Definition entered (r : Region) (s : State) : State :=
  snd (load (emit (Enter r) s)).

(** The test [(block >= r.Z.pos(r.Z.size - 1)).all()] of [recurse]. *)
Definition occluded (r : Region) (s : State) : bool :=
  block_all_ge (depth s) (min (Y r)) (min (X r)) (size (Y r)) (size (X r))
               (top r).

(** The state of [recurse] after the interval evaluation of an interior
    region, and the interval obtained. *)
Definition evaluated (r : Region) (s : State) : State :=
  snd (eval_interval r (entered r s)).

Definition bound (r : Region) (s : State) : Interval :=
  evalI (active s) (box r).

(** No pixel of the depth image is lower in [s'] than in [s]. *)
Definition depth_mono (s s' : State) : Prop :=
  forall y x, le (depth s y x) (depth s' y x).

(** [s'] has the activation stack, the remembered box and the count of
    flag reads of [s]. *)
Definition same_tree (s s' : State) : Prop :=
  active s' = active s /\ last s' = last s /\ loads s' = loads s.

(** Wherever a point is staged, its index is below the capacity of the
    arrays [xs] and [ys] and below the number of lanes of a [Result]. *)
Definition staged_below_capacity (e : Event) : Prop :=
  forall idx, e = SetPoint idx -> idx < NUM_POINTS /\ idx < Result.lanes.

(** The height of the activation stack after the events [evs], starting
    from height [d]; [None] when a [Pop] finds the stack at its starting
    height or below. *)
Fixpoint nesting (evs : list Event) (d : nat) : option nat :=
  match evs with
  | [] => Some d
  | Push :: t => nesting t (S d)
  | Pop :: t => match d with O => None | S d' => nesting t d' end
  | _ :: t => nesting t d
  end.

(** Every [Push] is closed by exactly one later [Pop], in stack order. *)
Definition balanced (evs : list Event) : Prop := nesting evs 0 = Some 0.

(** The image writes of a list of events, replayed on a depth image and on
    a normal image. *)
Definition replay_depth (e : Event) (img : Image Depth) : Image Depth :=
  match e with
  | WriteDepth row col _ z => write row col (Fin z) img
  | Fill r => block_max img (min (Y r)) (min (X r)) (size (Y r)) (size (X r))
                        (top r)
  | _ => img
  end.

Definition replay_norm (e : Event) (img : Image BinNums.Z) : Image BinNums.Z :=
  match e with
  | WriteNormal row col v => write row col v img
  | _ => img
  end.

(** Events that touch neither image nor the evaluator's results: the entry
    of a call, a read of the flag that finds it set, and a [pop]. *)
Definition quiet (e : Event) : Prop :=
  match e with
  | Enter _ | Load true | Pop => True
  | _ => False
  end.

(** The flag was not found set. *)
Definition unset (e : Event) : Prop := e <> Load true.

(** Once set, the cancellation flag stays set. *)
Definition sticky : Prop :=
  forall m n, m <= n -> abort m = true -> abort n = true.

(** The axes of a region have a non-negative voxel pitch: a voxel of higher
    index has the higher coordinate. *)
Definition upright (r : Region) : Prop :=
  (0 <= hstep (X r) /\ 0 <= hstep (Y r) /\ 0 <= hstep (Z r))%Z.


(** The images of [s'] are those of [s] with the writes recorded in the
    trace since [s] replayed on them. *)
Definition replay_all_depth (evs : list Event) (img : Image Depth)
  : Image Depth :=
  fold_left (fun i e => replay_depth e i) evs img.

Definition replay_all_norm (evs : list Event) (img : Image BinNums.Z)
  : Image BinNums.Z :=
  fold_left (fun i e => replay_norm e i) evs img.

Definition coherent (s s' : State) : Prop :=
  exists evs, trace s' = trace s ++ evs /\
              depth s' = replay_all_depth evs (depth s) /\
              norm s' = replay_all_norm evs (norm s).

(** The flag has been found set by one of the reads made so far. *)
Definition observed (s : State) : Prop :=
  exists n, n < loads s /\ abort n = true.

(** From [s] to [s'] the events split into a part in which the flag is
    never found set and a quiet part that follows the first read finding
    it set. *)
Definition winds_down (s s' : State) : Prop :=
  loads s <= loads s' /\
  exists pre post,
    trace s' = trace s ++ pre ++ post /\
    Forall unset pre /\ Forall quiet post /\
    (observed s -> Forall quiet pre) /\
    (post <> [] -> observed s').

(** The kinds of events of a call of [pixels]. *)
Definition pixel_kind (e : Event) : Prop :=
  match e with
  | EvalVoxels _ | WriteDepth _ _ _ _ | EvalGradients _ | WriteNormal _ _ _
  | SetPoint _ => True
  | _ => False
  end.

(** Two states hold the same images and the same activation stack. *)
Definition same_images (s1 s2 : State) : Prop :=
  depth s1 = depth s2 /\ norm s1 = norm s2 /\ active s1 = active s2.

(** Two states of [pixels] agree on the locals that the source has
    initialised: the counters and the staged entries below [norm_count]. *)
Definition same_staging (s1 s2 : State) : Prop :=
  index s1 = index s2 /\ norm_count s1 = norm_count s2 /\
  forall i, i < norm_count s1 ->
    xs s1 i = xs s2 i /\ ys s1 i = ys s2 i /\ staged s1 i = staged s2 i.

(** The two tests of the loop body of [pixels] for voxel [(i, j, k)]: the
    voxel is filled and in front of the depth recorded for its pixel. *)
Definition hit (r : Region) (out : list BinNums.Z) (i j k : nat) (s : State)
  : bool :=
  (nth (index s) out 0 <? 0)%Z &&
  ltb (depth s (min (Y r) + j) (min (X r) + i))
      (pos (Z r) (size (Z r) - k - 1)).

(** The state of [pixels] once a hit has been written and staged, before
    the test [norm_count == NUM_POINTS]. *)
Definition stage (r : Region) (i j k : nat) (s : State) : State :=
  let row := min (Y r) + j in
  let col := min (X r) + i in
  let z := pos (Z r) (size (Z r) - k - 1) in
  mkState (write row col (Fin z) (depth s)) (norm s)
          (Result.set (pos (X r) i, pos (Y r) j, pos (Z r) k) (norm_count s)
                      (staged s))
          (active s) (last s)
          (store (xs s) (norm_count s) col) (store (ys s) (norm_count s) row)
          (S (index s) + (size (Z r) - k - 1)) (S (norm_count s)) (loads s)
          ((trace s ++ [WriteDepth row col (depth s row col) z])
           ++ [SetPoint (norm_count s)]).

(** *** Exhaustive evaluation, in the words of the specification

    For each pixel column the voxel closest to the viewer (highest Z) whose
    value is negative gives the depth, and the gradient at that voxel gives
    the normal; a column without such a voxel keeps minus infinity and the
    empty normal. *)

(** The highest coordinate [p k], [k < n], at which the value [v k] is
    negative. *)
Fixpoint highest_inside (v p : nat -> BinNums.Z) (n : nat) : Depth :=
  match n with
  | O => NegInf
  | S n' =>
      if (v n' <? 0)%Z then join (Fin (p n')) (highest_inside v p n')
      else highest_inside v p n'
  end.

(** The index of the topmost voxel with a negative value. *)
Fixpoint highest_voxel (v : nat -> BinNums.Z) (n : nat) : option nat :=
  match n with
  | O => None
  | S n' => if (v n' <? 0)%Z then Some n' else highest_voxel v n'
  end.

(** The field along the voxel column [(i, j)] of a region. *)
Definition column_values (act : list Box) (r : Region) (i j : nat)
  : nat -> BinNums.Z :=
  fun k => evalF act (pos (X r) i) (pos (Y r) j) (pos (Z r) k).

(** The depth image of the voxels of [r] alone, evaluated one by one with
    the nodes deactivated for [act] skipped. *)
Definition target (act : list Box) (r : Region) : Image Depth :=
  fun y x =>
    if in_block (min (Y r)) (min (X r)) (size (Y r)) (size (X r)) y x then
      highest_inside (column_values act r (x - min (X r)) (y - min (Y r)))
                     (pos (Z r)) (size (Z r))
    else NegInf.

Definition exhaustive_depth (r : Region) : Image Depth := target [] r.

Definition exhaustive_norm (r : Region) : Image BinNums.Z :=
  fun y x =>
    if in_block (min (Y r)) (min (X r)) (size (Y r)) (size (X r)) y x then
      let i := x - min (X r) in
      let j := y - min (Y r) in
      match highest_voxel (column_values [] r i j) (size (Z r)) with
      | Some k => colour (evalG [] (pos (X r) i) (pos (Y r) j) (pos (Z r) k))
      | None => 0%Z
      end
    else 0%Z.

(** Every voxel centre of [r] lies in the box [b]. *)
Definition covers (b : Box) (r : Region) : Prop :=
  forall i j k, i < size (X r) -> j < size (Y r) -> k < size (Z r) ->
    inside b (pos (X r) i) (pos (Y r) j) (pos (Z r) k).

(** The contract of the evaluator. Interval evaluation is sound: over a box,
    and at points of all the boxes pushed before, the field lies within the
    bound returned. Deactivation is neutral: at points of all the boxes
    pushed, skipping the deactivated nodes does not change the value. *)
Definition sound : Prop :=
  forall act b x y z,
    inside b x y z -> (forall b', In b' act -> inside b' x y z) ->
    (lower (evalI act b) <= evalF [] x y z <= upper (evalI act b))%Z.

Definition neutral : Prop :=
  forall act x y z,
    (forall b', In b' act -> inside b' x y z) ->
    evalF act x y z = evalF [] x y z.

(** One axis cut in two at voxel [h]. *)
Definition cut (a a1 a2 : DiscreteRange) (h : nat) : Prop :=
  h <= size a /\
  a1 = mkRange (origin a) (hstep a) (min a) h /\
  a2 = mkRange (origin a + 2 * hstep a * Z.of_nat h)%Z (hstep a)
               (min a + h) (size a - h).

(** *** Notions used for the further properties of [pixels] and [recurse] *)

(** The normal image as it will be once the gradients still staged have
    been evaluated and stored, that is after the next call of [run]. *)
Definition pending (s : State) : Image BinNums.Z :=
  fold_left
    (fun img i => write (ys s i) (xs s i) (colour (evalCore s i)) img)
    (seq 0 (norm_count s)) (norm s).

(** The voxel at which the innermost loop of [pixels] breaks: the first
    one, from index [n - 1] downwards, that is filled and in front of the
    depth [d] recorded for the pixel. *)
Fixpoint first_hit (v p : nat -> BinNums.Z) (d : Depth) (n : nat)
  : option nat :=
  match n with
  | O => None
  | S n' => if (v n' <? 0)%Z && ltb d (p n') then Some n'
            else first_hit v p d n'
  end.

(** The events of one call of [pixels] on the region [r]: one evaluation of
    the voxels of [r], points staged below the capacity, and gradient
    batches that are neither empty nor larger than the capacity. *)
Definition leaf_event (r : Region) (e : Event) : Prop :=
  match e with
  | EvalVoxels r' => r' = r
  | SetPoint idx => idx < NUM_POINTS
  | EvalGradients n => 0 < n <= NUM_POINTS
  | WriteDepth _ _ _ _ | WriteNormal _ _ _ => True
  | _ => False
  end.

(** The evaluator is used within its batch widths: voxels are evaluated in
    bulk only for regions of at most [count_double] voxels, intervals only
    for larger ones, gradients in batches of one to [NUM_POINTS] points, and
    the assertion of [recurse] holds. *)
Definition within_batches (e : Event) : Prop :=
  match e with
  | EvalVoxels r => voxels r <= count_double
  | EvalInterval r => count_double < voxels r
  | EvalGradients n => 0 < n <= NUM_POINTS
  | SetPoint idx => idx < NUM_POINTS
  | AssertFailed => False
  | _ => True
  end.

(** The calls of [recurse] and the reads of the cancellation flag recorded
    in a list of events. *)
Definition is_enter (e : Event) : bool :=
  match e with Enter _ => true | _ => false end.

Definition is_load (e : Event) : bool :=
  match e with Load _ => true | _ => false end.

Definition calls (evs : list Event) : nat := length (filter is_enter evs).

Definition reads (evs : list Event) : nat := length (filter is_load evs).

(** A pixel without a depth has the empty normal. *)
Definition blank (s : State) : Prop :=
  forall y x, depth s y x = NegInf -> norm s y x = 0%Z.

(** The pixel [(y, x)] lies in the footprint of the region [r]. *)
Definition footprint (r : Region) (y x : nat) : bool :=
  in_block (min (Y r)) (min (X r)) (size (Y r)) (size (X r)) y x.

(** Two states show the same images pixel by pixel and hold the same
    activation stack, remembered box and count of flag reads. *)
Definition same_view (s1 s2 : State) : Prop :=
  (forall y x, depth s1 y x = depth s2 y x) /\
  (forall y x, norm s1 y x = norm s2 y x) /\
  active s1 = active s2 /\ last s1 = last s2 /\ loads s1 = loads s2.

(** ** Properties *)

(** Projections of updated states. *)
Ltac st_simpl :=
  cbn [depth norm staged active last xs ys index norm_count loads trace
       set_depth set_norm set_staged set_active set_last set_xs set_ys
       set_index set_norm_count set_loads emit fst snd] in *.

(** *** The loop body of [pixels] in one piece *)

Lemma voxel_eq r out i j k s :
  voxel r out i j k s =
    if hit r out i j k s then
      (if Nat.eqb (S (norm_count s)) NUM_POINTS then run (stage r i j k s)
       else stage r i j k s, true)
    else (set_index (S (index s)) s, false).
Proof.
  destruct s as [d n st a l x y ix nc lo tr].
  lazy beta iota zeta delta
    [voxel hit stage setPoint emit set_depth set_norm set_staged set_active
     set_last set_xs set_ys set_index set_norm_count set_loads
     depth norm staged active last xs ys index norm_count loads trace andb].
  destruct (nth ix out 0%Z <? 0)%Z; [|reflexivity].
  destruct (ltb _ _); reflexivity.
Qed.

Lemma stage_spec r i j k s :
  trace (stage r i j k s) =
    trace s ++ [WriteDepth (min (Y r) + j) (min (X r) + i)
                  (depth s (min (Y r) + j) (min (X r) + i))
                  (pos (Z r) (size (Z r) - k - 1)); SetPoint (norm_count s)] /\
  depth (stage r i j k s) =
    write (min (Y r) + j) (min (X r) + i)
          (Fin (pos (Z r) (size (Z r) - k - 1))) (depth s) /\
  norm (stage r i j k s) = norm s /\ same_tree s (stage r i j k s) /\
  norm_count (stage r i j k s) = S (norm_count s) /\
  index (stage r i j k s) = S (index s) + (size (Z r) - k - 1).
Proof. unfold stage. st_simpl. rewrite <- app_assoc. repeat split. Qed.

(** Case analysis on the comparisons of a goal. *)
Ltac bool_cases :=
  repeat match goal with
  | |- context [Nat.eqb ?a ?b] => destruct (Nat.eqb_spec a b)
  | |- context [Nat.leb ?a ?b] => destruct (Nat.leb_spec a b)
  | |- context [Nat.ltb ?a ?b] => destruct (Nat.ltb_spec a b)
  end; cbn [andb].

(** The point staged for the gradient of a hit at loop index [k] has the Z
    coordinate [r.Z.pos(k)]; the depth written for the same hit is
    [r.Z.pos(r.Z.size - k - 1)]. *)
Lemma stage_point r i j k s :
  staged (stage r i j k s) (norm_count s)
  = (pos (X r) i, pos (Y r) j, pos (Z r) k).
Proof. unfold stage, Result.set. st_simpl. now rewrite Nat.eqb_refl. Qed.

(** *** Events emitted between two states *)

Lemma emits_refl Q s : emits Q s s.
Proof. exists []. split; [now rewrite app_nil_r | constructor]. Qed.

Lemma emits_same Q s s' : trace s' = trace s -> emits Q s s'.
Proof. intros H. exists []. split; [now rewrite app_nil_r | constructor]. Qed.

Lemma emits_trans Q s1 s2 s3 : emits Q s1 s2 -> emits Q s2 s3 -> emits Q s1 s3.
Proof.
  intros (e1 & H1 & F1) (e2 & H2 & F2). exists (e1 ++ e2). split.
  - now rewrite H2, H1, app_assoc.
  - apply Forall_app; split; assumption.
Qed.

Lemma emits_emit (Q : Event -> Prop) e s : Q e -> emits Q s (emit e s).
Proof. intros H. exists [e]. split; [reflexivity | now constructor]. Qed.

Lemma emits_step (Q : Event -> Prop) e s s' :
  trace s' = trace s ++ [e] -> Q e -> emits Q s s'.
Proof. intros H HQ. exists [e]. split; [assumption | now constructor]. Qed.

Lemma emits_weaken (Q Q' : Event -> Prop) s s' :
  (forall e, Q e -> Q' e) -> emits Q s s' -> emits Q' s s'.
Proof.
  intros H (evs & E & F). exists evs. split; [assumption |].
  eapply Forall_impl; eauto.
Qed.

Lemma emits_fold (Q : Event -> Prop) (A : Type) (f : State -> A -> State)
  (P : State -> Prop) (l : list A) :
  (forall s a, P s -> P (f s a) /\ emits Q s (f s a)) ->
  forall s, P s -> P (fold_left f l s) /\ emits Q s (fold_left f l s).
Proof.
  intros Hf. induction l as [|a l IH]; intros s Hs; simpl.
  - split; [assumption | apply emits_refl].
  - destruct (Hf s a Hs) as [HP HE]. destruct (IH _ HP) as [HP' HE'].
    split; [assumption | eapply emits_trans; eauto].
Qed.

(** *** The staging area of [pixels] *)

Lemma run_norm_count s : norm_count (run s) = 0.
Proof. reflexivity. Qed.

Lemma run_emits s : emits pixel_event s (run s).
Proof.
  unfold run. eapply emits_trans with (s2 := emit (EvalGradients (norm_count s)) s).
  - apply emits_emit. exact I.
  - generalize (emit (EvalGradients (norm_count s)) s) as s1.
    generalize (seq 0 (norm_count s)) as l. generalize (evalCore s) as gs.
    intros gs l s1. apply emits_trans with
      (s2 := fold_left (fun s i =>
         emit (WriteNormal (ys s i) (xs s i) (colour (gs i)))
              (set_norm (write (ys s i) (xs s i) (colour (gs i)) (norm s)) s))
         l s1).
    + apply (@emits_fold pixel_event nat _ (fun _ => True)); [|exact I].
      intros s2 a _. split; [exact I |]. eapply emits_step; [reflexivity | exact I].
    + apply emits_same. reflexivity.
Qed.

Lemma voxel_staging r out i j k s :
  0 < NUM_POINTS -> norm_count s < NUM_POINTS ->
  norm_count (fst (voxel r out i j k s)) < NUM_POINTS /\
  emits pixel_event s (fst (voxel r out i j k s)).
Proof.
  intros Hpos Hlt. rewrite voxel_eq.
  destruct (hit r out i j k s); cbn [fst];
    [|split; [assumption | now apply emits_same]].
  destruct (stage_spec r i j k s) as (T & _ & _ & _ & C & _).
  assert (E : emits pixel_event s (stage r i j k s)).
  { eexists. split; [exact T |]. repeat constructor. assumption. }
  destruct (Nat.eqb (S (norm_count s)) NUM_POINTS) eqn:En.
  - split; [rewrite run_norm_count; assumption |].
    eapply emits_trans; [exact E | apply run_emits].
  - apply Nat.eqb_neq in En. split; [lia | exact E].
Qed.

Lemma column_staging r out i j n : forall k s,
  0 < NUM_POINTS -> norm_count s < NUM_POINTS ->
  norm_count (column r out i j n k s) < NUM_POINTS /\
  emits pixel_event s (column r out i j n k s).
Proof.
  induction n as [|n IH]; intros k s Hpos Hlt; simpl.
  - split; [assumption | apply emits_refl].
  - pose proof (voxel_staging r out i j k s Hpos Hlt) as [H1 H2].
    destruct (voxel r out i j k s) as [s' broke]. cbn [fst] in *.
    destruct broke; [split; assumption |].
    destruct (IH (S k) s' Hpos H1) as [H3 H4].
    split; [assumption | eapply emits_trans; eauto].
Qed.

Lemma pixels_emits r s : 0 < NUM_POINTS -> emits pixel_event s (pixels r s).
Proof.
  intros Hpos. unfold pixels.
  set (out := eval_region (active s) r).
  set (s1 := set_norm_count 0 (set_index 0 (emit (EvalVoxels r) s))).
  assert (E1 : emits pixel_event s s1)
    by (eapply emits_step; [reflexivity | exact I]).
  assert (N1 : norm_count s1 < NUM_POINTS) by exact Hpos.
  clearbody s1.
  match goal with |- context [fold_left ?f ?l s1] =>
    assert (H : norm_count (fold_left f l s1) < NUM_POINTS /\
                emits pixel_event s1 (fold_left f l s1)) end.
  { apply (@emits_fold pixel_event nat _ (fun s => norm_count s < NUM_POINTS));
      [|assumption].
    intros s2 i H2.
    apply (@emits_fold pixel_event nat _ (fun s => norm_count s < NUM_POINTS));
      [|assumption].
    intros s3 j H3. now apply column_staging. }
  destruct H as [_ H].
  match goal with |- context [fold_left ?f ?l s1] =>
    set (s2 := fold_left f l s1) in * end.
  destruct (0 <? norm_count s2).
  - eapply emits_trans; [exact E1 |]. eapply emits_trans; [exact H | apply run_emits].
  - eapply emits_trans; eauto.
Qed.

(** *** Termination of [recurse] *)

Lemma split_voxels r :
  canSplit r = true -> 0 < voxels r ->
  voxels (fst (split r)) < voxels r /\ voxels (snd (split r)) < voxels r.
Proof.
  unfold canSplit, voxels, split. intros Hc Hv.
  assert (HX : 0 < size (X r)) by (destruct (size (X r)); simpl in Hv; lia).
  assert (HY : 0 < size (Y r))
    by (destruct (size (Y r)); [rewrite Nat.mul_0_r in Hv|]; simpl in Hv; lia).
  assert (HZ : 0 < size (Z r))
    by (destruct (size (Z r)); [rewrite Nat.mul_0_r in Hv|]; simpl in Hv; lia).
  assert (Hhalf : forall n, 2 <= n -> 0 < n / 2 /\ n / 2 < n /\ 0 < n - n / 2
                                     /\ n - n / 2 < n).
  { intros n Hn.
    assert (1 <= n / 2) by (apply Nat.div_le_lower_bound; lia).
    assert (n / 2 < n) by (apply Nat.div_lt; lia). lia. }
  assert (Hmul : forall a b c, 0 < a -> b < c -> a * b < a * c)
    by (intros; now apply Nat.mul_lt_mono_pos_l).
  destruct ((size (Y r) <? size (Z r)) && (size (X r) <? size (Z r))) eqn:E1.
  - apply andb_true_iff in E1 as [E1 E2].
    apply Nat.ltb_lt in E1, E2.
    destruct (Hhalf (size (Z r))) as (H1 & H2 & H3 & H4); [lia |].
    cbn [fst snd X Y Z split_range size].
    split; apply Hmul; try assumption; apply Nat.mul_pos_pos; assumption.
  - destruct (size (X r) <? size (Y r)) eqn:E2.
    + apply Nat.ltb_lt in E2.
      destruct (Hhalf (size (Y r))) as (H1 & H2 & H3 & H4); [lia |].
      cbn [fst snd X Y Z split_range size].
      split; apply Nat.mul_lt_mono_pos_r; try assumption;
        apply Hmul; assumption.
    + apply Nat.ltb_ge in E2.
      assert (2 <= size (X r)).
      { apply andb_false_iff in E1.
        apply orb_true_iff in Hc as [Hc | Hc];
          [apply orb_true_iff in Hc as [Hc | Hc] |];
          apply Nat.ltb_lt in Hc; try lia.
        destruct E1 as [E1 | E1]; apply Nat.ltb_ge in E1; lia. }
      destruct (Hhalf (size (X r))) as (H1 & H2 & H3 & H4); [lia |].
      cbn [fst snd X Y Z split_range size].
      split; apply Nat.mul_lt_mono_pos_r; try assumption;
        apply Nat.mul_lt_mono_pos_r; assumption.
Qed.

Lemma interior_canSplit r :
  0 < count_double -> count_double < voxels r -> canSplit r = true.
Proof.
  unfold canSplit, voxels. intros HW Hv.
  destruct (1 <? size (X r)) eqn:EX; [reflexivity |].
  destruct (1 <? size (Y r)) eqn:EY; [reflexivity |].
  destruct (1 <? size (Z r)) eqn:EZ; [reflexivity |].
  apply Nat.ltb_ge in EX, EY, EZ. exfalso.
  assert (size (X r) * size (Y r) <= 1 * 1) by (apply Nat.mul_le_mono; lia).
  assert (size (X r) * size (Y r) * size (Z r) <= 1 * 1 * 1)
    by (apply Nat.mul_le_mono; lia).
  lia.
Qed.

Lemma recurse_body_ext rec1 rec2 r s :
  (forall r' s', voxels r' < voxels r -> rec1 r' s' = rec2 r' s') ->
  recurse_body rec1 r s = recurse_body rec2 r s.
Proof.
  intros H. unfold recurse_body.
  destruct (load (emit (Enter r) s)) as [stop s1].
  destruct stop; [reflexivity |].
  destruct (block_all_ge _ _ _ _ _ _); [reflexivity |].
  destruct (voxels r <=? count_double) eqn:EW; [reflexivity |].
  apply Nat.leb_gt in EW.
  destruct (eval_interval r s1) as [out s2].
  destruct (upper out <? 0)%Z; [reflexivity |].
  destruct (lower out <=? 0)%Z; [|reflexivity].
  destruct (canSplit r) eqn:EC; [|reflexivity].
  destruct (split_voxels r EC) as [H1 H2]; [lia |].
  rewrite (H _ _ H2), (H _ _ H1). reflexivity.
Qed.

Lemma recurse_fuel_enough n : forall m r s,
  voxels r < n -> voxels r < m -> recurse_fuel n r s = recurse_fuel m r s.
Proof.
  induction n as [|n IH]; intros m r s Hn Hm; [lia |].
  destruct m as [|m]; [lia |]. simpl.
  apply recurse_body_ext. intros r' s' Hr. apply IH; lia.
Qed.

(** [recurse] satisfies the recursive definition of the source: the function
    terminates on every region. *)
Lemma recurse_eq r s : recurse r s = recurse_body recurse r s.
Proof.
  unfold recurse at 1. simpl. apply recurse_body_ext.
  intros r' s' Hr. unfold recurse. apply recurse_fuel_enough; lia.
Qed.

(** Case analysis and induction along the calls of [recurse]. *)
Lemma recurse_elim (P : Region -> State -> State -> Prop) :
  (forall r s, abort (loads s) = true -> P r s (entered r s)) ->
  (forall r s, abort (loads s) = false -> occluded r (entered r s) = true ->
     P r s (entered r s)) ->
  (forall r s, abort (loads s) = false -> occluded r (entered r s) = false ->
     voxels r <= count_double -> P r s (pixels r (entered r s))) ->
  (forall r s, abort (loads s) = false -> occluded r (entered r s) = false ->
     count_double < voxels r -> (upper (bound r s) < 0)%Z ->
     P r s (fill r (evaluated r s))) ->
  (forall r s, abort (loads s) = false -> occluded r (entered r s) = false ->
     count_double < voxels r -> (0 <= upper (bound r s))%Z ->
     (0 < lower (bound r s))%Z -> P r s (evaluated r s)) ->
  (forall r s s2 s3,
     abort (loads s) = false -> occluded r (entered r s) = false ->
     count_double < voxels r -> (0 <= upper (bound r s))%Z ->
     (lower (bound r s) <= 0)%Z -> canSplit r = true ->
     P (snd (split r)) (push (evaluated r s)) s2 ->
     P (fst (split r)) s2 s3 ->
     P r s (pop s3)) ->
  (forall r s, abort (loads s) = false -> occluded r (entered r s) = false ->
     count_double < voxels r -> (0 <= upper (bound r s))%Z ->
     (lower (bound r s) <= 0)%Z -> canSplit r = false ->
     P r s (emit AssertFailed (push (evaluated r s)))) ->
  forall r s, P r s (recurse r s).
Proof.
  intros Hcancel Hoccl Hleaf Hfill Hskip Hsplit Hassert.
  assert (H : forall n r s, voxels r < n -> P r s (recurse_fuel n r s)).
  { induction n as [|n IH]; intros r s Hn; [lia |].
    simpl. unfold recurse_body.
    pose proof (Hcancel r s) as Hc. pose proof (Hoccl r s) as Ho.
    pose proof (Hleaf r s) as Hl. pose proof (Hfill r s) as Hf.
    pose proof (Hskip r s) as Hs. pose proof (Hassert r s) as Ha.
    pose proof (fun s2 s3 => Hsplit r s s2 s3) as Hsp.
    unfold evaluated, bound, occluded, entered in *.
    unfold load in *. cbn [fst snd] in *.
    destruct (abort (loads (emit (Enter r) s))) eqn:EA;
      st_simpl; rewrite EA in *; [now apply Hc |].
    destruct (block_all_ge _ _ _ _ _ _) eqn:EO; [now apply Ho |].
    destruct (voxels r <=? count_double) eqn:EW.
    { apply Nat.leb_le in EW. now apply Hl. }
    apply Nat.leb_gt in EW. unfold eval_interval in *. cbn [fst snd] in *.
    st_simpl.
    destruct (upper _ <? 0)%Z eqn:EU.
    { apply Z.ltb_lt in EU. now apply Hf. }
    apply Z.ltb_ge in EU.
    destruct (lower _ <=? 0)%Z eqn:EL.
    - apply Z.leb_le in EL.
      destruct (canSplit r) eqn:EC; [|now apply Ha].
      destruct (split_voxels r EC) as [H1 H2]; [lia |].
      match goal with |- P _ _ (pop (?f ?a ?b)) => apply (Hsp b (f a b)) end;
        try assumption; try reflexivity; apply IH; lia.
    - apply Z.leb_gt in EL. now apply Hs. }
  intros r s. apply H. lia.
Qed.

(** *** The order of depth values *)

Lemma dle_refl d : le d d.
Proof. destruct d; simpl; [exact I | lia]. Qed.

Lemma dle_trans a b c : le a b -> le b c -> le a c.
Proof. destruct a, b, c; simpl; try tauto; lia. Qed.

Lemma ltb_dle d z : ltb d z = true -> le d (Fin z).
Proof. destruct d; simpl; [trivial |]. intros H. apply Z.ltb_lt in H. lia. Qed.

Lemma dle_max d z : le d (max d z).
Proof. destruct d; simpl; [exact I | lia]. Qed.

Lemma depth_mono_refl s : depth_mono s s.
Proof. intros y x. apply dle_refl. Qed.

Lemma depth_mono_same s s' : depth s' = depth s -> depth_mono s s'.
Proof. intros H y x. rewrite H. apply dle_refl. Qed.

Lemma depth_mono_trans s1 s2 s3 :
  depth_mono s1 s2 -> depth_mono s2 s3 -> depth_mono s1 s3.
Proof. intros H1 H2 y x. eapply dle_trans; [apply H1 | apply H2]. Qed.

Lemma same_tree_refl s : same_tree s s.
Proof. repeat split. Qed.

Lemma same_tree_trans s1 s2 s3 :
  same_tree s1 s2 -> same_tree s2 s3 -> same_tree s1 s3.
Proof. unfold same_tree. intros (A & B & C) (D & E & F). repeat split; congruence. Qed.

Lemma fold_left_inv (A : Type) (P : State -> Prop) (f : State -> A -> State)
  (l : list A) :
  (forall s a, P s -> P (f s a)) -> forall s, P s -> P (fold_left f l s).
Proof.
  intros Hf. induction l as [|a l IH]; intros s Hs; simpl; [assumption |].
  apply IH, Hf, Hs.
Qed.

(** *** What [run] leaves alone *)

Lemma run_frame s :
  depth (run s) = depth s /\ same_tree s (run s) /\ staged (run s) = staged s
  /\ xs (run s) = xs s /\ ys (run s) = ys s /\ index (run s) = index s.
Proof.
  unfold run, same_tree. st_simpl.
  match goal with |- context [fold_left ?f ?l ?s1] =>
    generalize (fold_left_inv
      (fun s' => depth s' = depth s /\ active s' = active s /\
                 last s' = last s /\ loads s' = loads s /\
                 staged s' = staged s /\ xs s' = xs s /\ ys s' = ys s /\
                 index s' = index s) f l) end.
  intros H.
  match type of H with _ -> forall s0, _ =>
    specialize (fun Hf => H Hf (emit (EvalGradients (norm_count s)) s)) end.
  destruct H as (A & B & C & D & E & F & G & I).
  - intros s2 a Hs. st_simpl. exact Hs.
  - st_simpl. repeat split.
  - repeat split; assumption.
Qed.

(** *** Depth never decreases *)

Lemma voxel_frame r out i j k s :
  depth_mono s (fst (voxel r out i j k s)) /\
  same_tree s (fst (voxel r out i j k s)).
Proof.
  rewrite voxel_eq. destruct (hit r out i j k s) eqn:Eh; cbn [fst];
    [|split; [now apply depth_mono_same | repeat split]].
  destruct (stage_spec r i j k s) as (_ & D & _ & A & _).
  assert (H1 : depth_mono s (stage r i j k s)).
  { intros y x. rewrite D. unfold write.
    destruct (Nat.eqb y _ && Nat.eqb x _) eqn:Ey; [|apply dle_refl].
    apply andb_true_iff in Ey as [Ey Ex].
    apply Nat.eqb_eq in Ey, Ex. subst y x.
    unfold hit in Eh. apply andb_true_iff in Eh as [_ Eh]. now apply ltb_dle. }
  destruct (Nat.eqb (S (norm_count s)) NUM_POINTS); [|split; assumption].
  destruct (run_frame (stage r i j k s)) as (A' & B' & _). split.
  - eapply depth_mono_trans; [exact H1 | now apply depth_mono_same].
  - apply same_tree_trans with (s2 := stage r i j k s); assumption.
Qed.

Lemma column_frame r out i j n : forall k s,
  depth_mono s (column r out i j n k s) /\ same_tree s (column r out i j n k s).
Proof.
  induction n as [|n IH]; intros k s; simpl.
  - split; [apply depth_mono_refl | apply same_tree_refl].
  - pose proof (voxel_frame r out i j k s) as [H1 H2].
    destruct (voxel r out i j k s) as [s' broke]. cbn [fst] in *.
    destruct broke; [split; assumption |].
    destruct (IH (S k) s') as [H3 H4]. split.
    + eapply depth_mono_trans; eauto.
    + eapply same_tree_trans; eauto.
Qed.

Lemma pixels_frame r s :
  depth_mono s (pixels r s) /\ same_tree s (pixels r s).
Proof.
  unfold pixels.
  set (out := eval_region (active s) r).
  set (s1 := set_norm_count 0 (set_index 0 (emit (EvalVoxels r) s))).
  assert (H1 : depth_mono s s1 /\ same_tree s s1)
    by (split; [now apply depth_mono_same | repeat split]).
  clearbody s1.
  match goal with |- context [fold_left ?f ?l s1] =>
    assert (H : depth_mono s (fold_left f l s1) /\
                same_tree s (fold_left f l s1)) end.
  { apply fold_left_inv; [|assumption]. intros s2 i H2.
    apply fold_left_inv; [|assumption]. intros s3 j [H3 H4].
    destruct (column_frame r out i j (size (Z r)) 0 s3). split.
    - eapply depth_mono_trans; eauto.
    - eapply same_tree_trans; eauto. }
  match goal with |- context [fold_left ?f ?l s1] =>
    set (s2 := fold_left f l s1) in * end.
  destruct (0 <? norm_count s2); [|assumption].
  destruct H as [H2 H3]. destruct (run_frame s2) as (A & B & _). split.
  - eapply depth_mono_trans; [exact H2 | now apply depth_mono_same].
  - eapply same_tree_trans; eauto.
Qed.

Lemma fill_mono r s : depth_mono s (fill r s).
Proof.
  intros y x. unfold fill, block_max. st_simpl.
  destruct (in_block _ _ _ _ y x); [apply dle_max | apply dle_refl].
Qed.

Lemma recurse_mono r s : depth_mono s (recurse r s).
Proof.
  apply recurse_elim with (P := fun _ s s' => depth_mono s s'); clear r s.
  - intros r s _. now apply depth_mono_same.
  - intros r s _ _. now apply depth_mono_same.
  - intros r s _ _ _. eapply depth_mono_trans; [|apply pixels_frame].
    now apply depth_mono_same.
  - intros r s _ _ _ _. eapply depth_mono_trans; [|apply fill_mono].
    now apply depth_mono_same.
  - intros r s _ _ _ _ _. now apply depth_mono_same.
  - intros r s s2 s3 _ _ _ _ _ _ H2 H3.
    eapply depth_mono_trans; [|eapply depth_mono_trans; [exact H2 |]].
    + now apply depth_mono_same.
    + eapply depth_mono_trans; [exact H3 | now apply depth_mono_same].
  - intros r s _ _ _ _ _ _. now apply depth_mono_same.
Qed.

(** *** The kinds of events of [pixels] *)

Lemma run_kind s : emits pixel_kind s (run s).
Proof.
  unfold run.
  apply emits_trans with (s2 := emit (EvalGradients (norm_count s)) s);
    [apply emits_emit; exact I |].
  generalize (emit (EvalGradients (norm_count s)) s) as s1.
  generalize (seq 0 (norm_count s)) as l. generalize (evalCore s) as gs.
  intros gs l s1.
  match goal with |- emits _ s1 (set_norm_count 0 (fold_left ?f l s1)) =>
    apply emits_trans with (s2 := fold_left f l s1) end;
    [|now apply emits_same].
  apply (@emits_fold pixel_kind nat _ (fun _ => True)); [|exact I].
  intros s2 a _. split; [exact I |]. eapply emits_step; [reflexivity | exact I].
Qed.

Lemma voxel_kind r out i j k s : emits pixel_kind s (fst (voxel r out i j k s)).
Proof.
  rewrite voxel_eq. destruct (hit r out i j k s); cbn [fst];
    [|now apply emits_same].
  destruct (stage_spec r i j k s) as (T & _).
  assert (E : emits pixel_kind s (stage r i j k s)).
  { eexists. split; [exact T |]. repeat constructor. }
  destruct (Nat.eqb (S (norm_count s)) NUM_POINTS); [|assumption].
  eapply emits_trans; [exact E | apply run_kind].
Qed.

Lemma column_kind r out i j n : forall k s,
  emits pixel_kind s (column r out i j n k s).
Proof.
  induction n as [|n IH]; intros k s; simpl; [apply emits_refl |].
  pose proof (voxel_kind r out i j k s) as H.
  destruct (voxel r out i j k s) as [s' broke]. cbn [fst] in H.
  destruct broke; [assumption |]. eapply emits_trans; [exact H | apply IH].
Qed.

Lemma pixels_kind r s : emits pixel_kind s (pixels r s).
Proof.
  unfold pixels.
  set (out := eval_region (active s) r).
  set (s1 := set_norm_count 0 (set_index 0 (emit (EvalVoxels r) s))).
  assert (H1 : emits pixel_kind s s1)
    by (eapply emits_step; [reflexivity | exact I]).
  clearbody s1.
  match goal with |- context [fold_left ?f ?l s1] =>
    assert (H : emits pixel_kind s (fold_left f l s1)) end.
  { apply fold_left_inv; [|assumption]. intros s2 i H2.
    apply fold_left_inv; [|assumption]. intros s3 j H3.
    eapply emits_trans; [exact H3 | apply column_kind]. }
  match goal with |- context [fold_left ?f ?l s1] =>
    set (s2 := fold_left f l s1) in * end.
  destruct (0 <? norm_count s2); [|assumption].
  eapply emits_trans; [exact H | apply run_kind].
Qed.

(** *** Claims about single writes and about the staging area *)

(** C2: no write to the depth image lowers a pixel. The update of one voxel
    in [pixels], a whole call of [pixels], the opaque fill of [recurse] and a
    whole call of [recurse] (hence every call made during a render, from
    whatever state it starts) leave each pixel's depth greater than or equal
    to its previous value. *)
Theorem depth_never_decreases :
  (forall r out i j k s, depth_mono s (fst (voxel r out i j k s))) /\
  (forall r s, depth_mono s (pixels r s)) /\
  (forall r s, depth_mono s (fill r s)) /\
  (forall r s, depth_mono s (recurse r s)).
Proof.
  split; [|split; [|split]].
  - intros. apply voxel_frame.
  - intros. apply pixels_frame.
  - apply fill_mono.
  - apply recurse_mono.
Qed.

Lemma recurse_emits (Q : Event -> Prop) :
  (forall r s, emits Q s (pixels r s)) ->
  (forall r, Q (Enter r)) -> (forall b, Q (Load b)) ->
  (forall r, Q (EvalInterval r)) -> (forall r, Q (Fill r)) ->
  Q Push -> Q Pop -> Q AssertFailed ->
  forall r s, emits Q s (recurse r s).
Proof.
  intros Hpix HE HL HI HF Hpush Hpop Hassert r s.
  assert (Hent : forall r s, emits Q s (entered r s)).
  { intros r0 s0. exists [Enter r0; Load (abort (loads s0))]. split.
    - unfold entered, load. st_simpl. now rewrite <- app_assoc.
    - repeat constructor; auto. }
  assert (Hev : forall r s, emits Q s (evaluated r s)).
  { intros r0 s0. eapply emits_trans; [apply Hent |].
    eapply emits_step; [reflexivity | apply HI]. }
  apply recurse_elim with (P := fun _ s s' => emits Q s s'); clear r s.
  - intros; apply Hent.
  - intros; apply Hent.
  - intros r s _ _ _. eapply emits_trans; [apply Hent | apply Hpix].
  - intros r s _ _ _ _. eapply emits_trans; [apply Hev |].
    eapply emits_step; [reflexivity | apply HF].
  - intros; apply Hev.
  - intros r s s2 s3 _ _ _ _ _ _ H2 H3.
    eapply emits_trans; [apply Hev |].
    apply emits_trans with (s2 := push (evaluated r s));
      [eapply emits_step; [reflexivity | exact Hpush] |].
    eapply emits_trans; [exact H2 |]. eapply emits_trans; [exact H3 |].
    eapply emits_step; [reflexivity | exact Hpop].
  - intros r s _ _ _ _ _ _. eapply emits_trans; [apply Hev |].
    apply emits_trans with (s2 := push (evaluated r s));
      [eapply emits_step; [reflexivity | exact Hpush] |].
    eapply emits_step; [reflexivity | exact Hassert].
Qed.

(** C10: the staging buffer never overflows. With a capacity [NUM_POINTS]
    that is positive and at most the number of lanes of a [Result], every
    [setPoint] of a call of [pixels], and so of a whole render, uses an index
    strictly below [NUM_POINTS]; the stores into [xs], [ys] and the lanes are
    in bounds. *)
Theorem staging_never_overflows :
  0 < NUM_POINTS -> NUM_POINTS <= Result.lanes ->
  (forall r s, emits staged_below_capacity s (pixels r s)) /\
  (forall r clip s, emits staged_below_capacity s (Render r clip s)).
Proof.
  intros Hpos Hcap.
  assert (Hpix : forall e, pixel_event e -> staged_below_capacity e).
  { intros e He idx ->. simpl in He. lia. }
  split.
  - intros r s. eapply emits_weaken; [exact Hpix | now apply pixels_emits].
  - intros r clip s. unfold Render.
    match goal with |- context [recurse r ?s0] =>
      assert (H : emits staged_below_capacity s0 (recurse r s0)) end.
    { apply recurse_emits; try (intros; intros idx Hx; discriminate).
      intros r0 s1. eapply emits_weaken; [exact Hpix | now apply pixels_emits]. }
    destruct clip; exact H.
Qed.

(** *** The steps of [recurse] before any recursion *)

Lemma entered_spec r s :
  trace (entered r s) = trace s ++ [Enter r; Load (abort (loads s))] /\
  depth (entered r s) = depth s /\ norm (entered r s) = norm s /\
  active (entered r s) = active s /\ loads (entered r s) = S (loads s).
Proof.
  unfold entered, load. st_simpl. rewrite <- app_assoc. repeat split.
Qed.

Lemma evaluated_spec r s :
  trace (evaluated r s) =
    trace s ++ [Enter r; Load (abort (loads s)); EvalInterval r] /\
  depth (evaluated r s) = depth s /\ norm (evaluated r s) = norm s /\
  active (evaluated r s) = active s /\ last (evaluated r s) = box r /\
  loads (evaluated r s) = S (loads s).
Proof.
  unfold evaluated, eval_interval, entered, load. st_simpl.
  rewrite <- !app_assoc. repeat split.
Qed.

Lemma recurse_cancelled r s :
  abort (loads s) = true -> recurse r s = entered r s.
Proof.
  intros H. rewrite recurse_eq. unfold recurse_body, entered, load.
  st_simpl. rewrite H. reflexivity.
Qed.

Lemma recurse_interior r s :
  abort (loads s) = false -> occluded r (entered r s) = false ->
  count_double < voxels r ->
  recurse r s =
    if (upper (bound r s) <? 0)%Z then fill r (evaluated r s)
    else if (lower (bound r s) <=? 0)%Z then
      if canSplit r then
        pop (recurse (fst (split r))
               (recurse (snd (split r)) (push (evaluated r s))))
      else emit AssertFailed (push (evaluated r s))
    else evaluated r s.
Proof.
  intros Ha Ho Hv. rewrite recurse_eq. unfold recurse_body.
  unfold occluded, evaluated, bound, entered, eval_interval, load in *.
  st_simpl. rewrite Ha. rewrite Ho.
  apply Nat.leb_gt in Hv. rewrite Hv. reflexivity.
Qed.

(** C3 (as amended): an interior region is classified by one interval
    evaluation. With a strictly negative upper bound every pixel of the
    footprint is raised to at least the region's highest voxel centre (it
    becomes the larger of its previous depth and that centre), the normal
    image is untouched, nothing is staged or recursed into. Otherwise,
    with a lower bound of at most zero, the region is subdivided. Otherwise,
    that is with an upper bound of at least zero and a strictly positive
    lower bound, neither image changes and there is no recursion. The tests
    are those of the source, in its order, and leave out no bound: an
    inverted bound such as [[5, 3]] is skipped, one such as [[5, -5]] is
    filled. *)
Theorem interior_region_classified r s :
  0 < count_double ->
  abort (loads s) = false -> occluded r (entered r s) = false ->
  count_double < voxels r ->
  let out := bound r s in
  let s1 := evaluated r s in
  (trace s1 = trace s ++ [Enter r; Load false; EvalInterval r] /\
   depth s1 = depth s /\ norm s1 = norm s) /\
  ((upper out < 0)%Z ->
     recurse r s = fill r s1 /\
     trace (recurse r s) = trace s1 ++ [Fill r] /\
     norm (recurse r s) = norm s /\
     forall y x,
       depth (recurse r s) y x =
         if in_block (min (Y r)) (min (X r)) (size (Y r)) (size (X r)) y x
         then max (depth s y x) (top r) else depth s y x) /\
  ((0 <= upper out)%Z -> (0 < lower out)%Z -> recurse r s = s1) /\
  ((0 <= upper out)%Z -> (lower out <= 0)%Z ->
     recurse r s =
       pop (recurse (fst (split r)) (recurse (snd (split r)) (push s1)))).
Proof.
  intros HW Ha Ho Hv out s1.
  pose proof (recurse_interior r s Ha Ho Hv) as E. fold out s1 in E.
  destruct (evaluated_spec r s) as (T & D & N & _). rewrite Ha in T.
  fold s1 in T, D, N.
  split; [repeat split; assumption |]. split; [|split].
  - intros Hu. apply Z.ltb_lt in Hu. rewrite Hu in E. rewrite E.
    split; [reflexivity |]. unfold fill. st_simpl. rewrite D, N.
    repeat split.
  - intros Hup Hl.
    assert (Hu : (upper out <? 0)%Z = false) by (apply Z.ltb_ge; lia).
    assert (Hl' : (lower out <=? 0)%Z = false) by (apply Z.leb_gt; lia).
    rewrite Hu, Hl' in E. exact E.
  - intros Hu Hl. apply Z.ltb_ge in Hu. apply Z.leb_le in Hl.
    rewrite Hu, Hl in E. rewrite (interior_canSplit r HW Hv) in E. exact E.
Qed.

(** *** Nesting of [push] and [pop] *)

Lemma nesting_app a : forall b d,
  nesting (a ++ b) d =
    match nesting a d with Some d' => nesting b d' | None => None end.
Proof.
  induction a as [|e a IH]; intros b d; [reflexivity |].
  destruct e; simpl; try apply IH. destruct d; [reflexivity | apply IH].
Qed.

Lemma nesting_shift evs : forall d k n,
  nesting evs d = Some k -> nesting evs (n + d) = Some (n + k).
Proof.
  induction evs as [|e evs IH]; intros d k n H.
  - simpl in *. congruence.
  - destruct e; simpl in *; try (now apply IH).
    + replace (S (n + d)) with (n + S d) by lia. now apply IH.
    + destruct d as [|d]; [discriminate |].
      rewrite Nat.add_succ_r. now apply IH.
Qed.

Lemma balanced_at evs d : balanced evs -> nesting evs d = Some d.
Proof.
  intros H. pose proof (nesting_shift evs 0 d H) as E.
  now rewrite !Nat.add_0_r in E.
Qed.

Lemma balanced_app a b : balanced a -> balanced b -> balanced (a ++ b).
Proof. unfold balanced. intros Ha Hb. now rewrite nesting_app, Ha. Qed.

Lemma balanced_flat evs :
  Forall (fun e => e <> Push /\ e <> Pop) evs -> balanced evs.
Proof.
  unfold balanced. generalize 0. induction evs as [|e evs IH]; intros d H.
  - reflexivity.
  - inversion H as [|? ? [H1 H2] H3]; subst.
    destruct e; simpl; try (now apply IH); congruence.
Qed.

Lemma balanced_bracket a b :
  balanced a -> balanced b -> balanced (Push :: a ++ b ++ [Pop]).
Proof.
  intros Ha Hb. unfold balanced. simpl.
  rewrite nesting_app, (balanced_at 1 Ha), nesting_app, (balanced_at 1 Hb).
  reflexivity.
Qed.

Lemma recurse_balanced r s :
  0 < count_double ->
  exists evs, trace (recurse r s) = trace s ++ evs /\ balanced evs /\
              active (recurse r s) = active s.
Proof.
  intros HW.
  apply recurse_elim with
    (P := fun _ s s' => exists evs, trace s' = trace s ++ evs /\
                                    balanced evs /\ active s' = active s);
    clear r s.
  - intros r s _. destruct (entered_spec r s) as (T & _ & _ & A & _).
    eexists. split; [exact T |]. split; [|exact A].
    apply balanced_flat. repeat constructor; discriminate.
  - intros r s _ _. destruct (entered_spec r s) as (T & _ & _ & A & _).
    eexists. split; [exact T |]. split; [|exact A].
    apply balanced_flat. repeat constructor; discriminate.
  - intros r s _ _ _. destruct (entered_spec r s) as (T & _ & _ & A & _).
    destruct (pixels_kind r (entered r s)) as (evs & T' & F).
    destruct (pixels_frame r (entered r s)) as (_ & A' & _).
    exists ([Enter r; Load (abort (loads s))] ++ evs).
    split; [now rewrite T', T, app_assoc |]. split; [|congruence].
    apply balanced_app; apply balanced_flat.
    + repeat constructor; discriminate.
    + eapply Forall_impl; [|exact F]. intros e He.
      destruct e; simpl in He; try tauto; split; discriminate.
  - intros r s _ _ _ _. destruct (evaluated_spec r s) as (T & _ & _ & A & _).
    exists ([Enter r; Load (abort (loads s)); EvalInterval r] ++ [Fill r]).
    split; [unfold fill; st_simpl; now rewrite T, app_assoc |].
    split; [|exact A]. apply balanced_flat. repeat constructor; discriminate.
  - intros r s _ _ _ _ _. destruct (evaluated_spec r s) as (T & _ & _ & A & _).
    eexists. split; [exact T |]. split; [|exact A].
    apply balanced_flat. repeat constructor; discriminate.
  - intros r s s2 s3 _ _ _ _ _ _ (e2 & T2 & B2 & A2) (e3 & T3 & B3 & A3).
    destruct (evaluated_spec r s) as (T & _ & _ & A & _).
    exists ([Enter r; Load (abort (loads s)); EvalInterval r]
            ++ Push :: e2 ++ e3 ++ [Pop]).
    split; [|split].
    + unfold pop. st_simpl. rewrite T3, T2. unfold push. st_simpl. rewrite T.
      rewrite <- !app_assoc. reflexivity.
    + apply balanced_app; [|now apply balanced_bracket].
      apply balanced_flat. repeat constructor; discriminate.
    + unfold pop. st_simpl. rewrite A3, A2. unfold push. st_simpl. exact A.
  - intros r s _ _ Hv _ _ Hc. rewrite (interior_canSplit r HW Hv) in Hc.
    discriminate.
Qed.



(** *** The images are the replay of the recorded writes *)

Lemma coherent_refl s : coherent s s.
Proof. exists []. rewrite app_nil_r. repeat split. Qed.

Lemma coherent_same s s' :
  trace s' = trace s -> depth s' = depth s -> norm s' = norm s ->
  coherent s s'.
Proof. intros T D N. exists []. rewrite app_nil_r. repeat split; assumption. Qed.

Lemma coherent_trans s1 s2 s3 :
  coherent s1 s2 -> coherent s2 s3 -> coherent s1 s3.
Proof.
  intros (e1 & T1 & D1 & N1) (e2 & T2 & D2 & N2). exists (e1 ++ e2).
  unfold replay_all_depth, replay_all_norm in *.
  rewrite !fold_left_app, <- D1, <- N1, <- D2, <- N2, T2, T1, app_assoc.
  repeat split.
Qed.

Lemma coherent_step e s s' :
  trace s' = trace s ++ [e] -> depth s' = replay_depth e (depth s) ->
  norm s' = replay_norm e (norm s) -> coherent s s'.
Proof. intros T D N. exists [e]. repeat split; assumption. Qed.

Lemma run_coherent s : coherent s (run s).
Proof.
  unfold run.
  apply coherent_trans with (s2 := emit (EvalGradients (norm_count s)) s);
    [(eapply coherent_step; reflexivity) |].
  generalize (emit (EvalGradients (norm_count s)) s) as s1.
  generalize (seq 0 (norm_count s)) as l. generalize (evalCore s) as gs.
  intros gs l s1.
  match goal with |- coherent s1 (set_norm_count 0 (fold_left ?f l s1)) =>
    apply coherent_trans with (s2 := fold_left f l s1) end;
    [|now apply coherent_same].
  revert s1. induction l as [|a l IH]; intros s1; [apply coherent_refl |].
  simpl. eapply coherent_trans; [|apply IH]. (eapply coherent_step; reflexivity).
Qed.

Lemma voxel_coherent r out i j k s : coherent s (fst (voxel r out i j k s)).
Proof.
  rewrite voxel_eq. destruct (hit r out i j k s); cbn [fst];
    [|now apply coherent_same].
  destruct (stage_spec r i j k s) as (T & D & N & _).
  assert (E : coherent s (stage r i j k s)).
  { eexists. split; [exact T |]. split; assumption. }
  destruct (Nat.eqb (S (norm_count s)) NUM_POINTS); [|assumption].
  eapply coherent_trans; [exact E | apply run_coherent].
Qed.

Lemma column_coherent r out i j n : forall k s,
  coherent s (column r out i j n k s).
Proof.
  induction n as [|n IH]; intros k s; simpl; [apply coherent_refl |].
  pose proof (voxel_coherent r out i j k s) as H.
  destruct (voxel r out i j k s) as [s' broke]. cbn [fst] in H.
  destruct broke; [assumption |]. eapply coherent_trans; [exact H | apply IH].
Qed.

Lemma pixels_coherent r s : coherent s (pixels r s).
Proof.
  unfold pixels.
  set (out := eval_region (active s) r).
  set (s1 := set_norm_count 0 (set_index 0 (emit (EvalVoxels r) s))).
  assert (H1 : coherent s s1) by (eapply coherent_step; reflexivity).
  clearbody s1.
  match goal with |- context [fold_left ?f ?l s1] =>
    assert (H : coherent s (fold_left f l s1)) end.
  { apply fold_left_inv; [|assumption]. intros s2 i H2.
    apply fold_left_inv; [|assumption]. intros s3 j H3.
    eapply coherent_trans; [exact H3 | apply column_coherent]. }
  match goal with |- context [fold_left ?f ?l s1] =>
    set (s2 := fold_left f l s1) in * end.
  destruct (0 <? norm_count s2); [|assumption].
  eapply coherent_trans; [exact H | apply run_coherent].
Qed.

Lemma entered_coherent r s : coherent s (entered r s).
Proof.
  destruct (entered_spec r s) as (T & D & N & _).
  eexists. split; [exact T |]. split; assumption.
Qed.

Lemma evaluated_coherent r s : coherent s (evaluated r s).
Proof.
  destruct (evaluated_spec r s) as (T & D & N & _).
  eexists. split; [exact T |]. split; assumption.
Qed.

Lemma recurse_coherent r s : coherent s (recurse r s).
Proof.
  apply recurse_elim with (P := fun _ s s' => coherent s s'); clear r s.
  - intros; apply entered_coherent.
  - intros; apply entered_coherent.
  - intros r s _ _ _.
    eapply coherent_trans; [apply entered_coherent | apply pixels_coherent].
  - intros r s _ _ _ _.
    eapply coherent_trans; [apply evaluated_coherent | (eapply coherent_step; reflexivity)].
  - intros; apply evaluated_coherent.
  - intros r s s2 s3 _ _ _ _ _ _ H2 H3.
    eapply coherent_trans; [apply evaluated_coherent |].
    apply coherent_trans with (s2 := push (evaluated r s));
      [(eapply coherent_step; reflexivity) |].
    eapply coherent_trans; [exact H2 |]. eapply coherent_trans; [exact H3 |].
    (eapply coherent_step; reflexivity).
  - intros r s _ _ _ _ _ _.
    eapply coherent_trans; [apply evaluated_coherent |].
    apply coherent_trans with (s2 := push (evaluated r s));
      (eapply coherent_step; reflexivity).
Qed.

(** *** Cancellation *)

Lemma observed_mono s s' : loads s <= loads s' -> observed s -> observed s'.
Proof. intros H (n & Hn & Ha). exists n. split; [lia | assumption]. Qed.

Lemma observed_set s : sticky -> observed s -> abort (loads s) = true.
Proof. intros Hs (n & Hn & Ha). apply (Hs n); [lia | assumption]. Qed.

Lemma unobserved_same s s' :
  loads s' = loads s -> ~ observed s -> ~ observed s'.
Proof.
  intros L H (n & Hn & Ha). apply H. exists n. rewrite <- L. tauto.
Qed.

Lemma winds_down_intro s s' pre post :
  loads s <= loads s' -> trace s' = trace s ++ pre ++ post ->
  Forall unset pre -> Forall quiet post ->
  (observed s -> Forall quiet pre) -> (post <> [] -> observed s') ->
  winds_down s s'.
Proof. intros. split; [assumption |]. exists pre, post. tauto. Qed.

Lemma winds_down_trans s1 s2 s3 :
  winds_down s1 s2 -> winds_down s2 s3 -> winds_down s1 s3.
Proof.
  intros (L1 & pre1 & post1 & T1 & U1 & Q1 & O1 & P1)
         (L2 & pre2 & post2 & T2 & U2 & Q2 & O2 & P2).
  destruct post1 as [|e post1].
  - rewrite app_nil_r in T1.
    apply winds_down_intro with (pre := pre1 ++ pre2) (post := post2).
    + lia.
    + now rewrite T2, T1, <- !app_assoc.
    + apply Forall_app; split; assumption.
    + assumption.
    + intros Ho. apply Forall_app. split; [now apply O1 |].
      apply O2. eapply observed_mono; eassumption.
    + assumption.
  - assert (Ho : observed s2) by (apply P1; discriminate).
    apply winds_down_intro with (pre := pre1)
                                (post := (e :: post1) ++ pre2 ++ post2).
    + lia.
    + now rewrite T2, T1, <- !app_assoc.
    + assumption.
    + repeat (apply Forall_app; split); auto.
    + assumption.
    + intros _. eapply observed_mono; eassumption.
Qed.

Lemma winds_down_live s s' :
  ~ observed s -> loads s' = loads s ->
  (exists evs, trace s' = trace s ++ evs /\ Forall unset evs) ->
  winds_down s s'.
Proof.
  intros Hn L (evs & T & U).
  apply winds_down_intro with (pre := evs) (post := []).
  - lia.
  - now rewrite app_nil_r.
  - assumption.
  - constructor.
  - intros Ho. contradiction.
  - congruence.
Qed.

Lemma winds_down_pop s : winds_down s (pop s).
Proof.
  apply winds_down_intro with (pre := [Pop]) (post := []).
  - unfold pop. st_simpl. lia.
  - reflexivity.
  - repeat constructor. discriminate.
  - constructor.
  - intros _. repeat constructor.
  - congruence.
Qed.

Lemma winds_down_entered_set r s :
  abort (loads s) = true -> winds_down s (entered r s).
Proof.
  intros Ha. destruct (entered_spec r s) as (T & _ & _ & _ & L).
  rewrite Ha in T.
  apply winds_down_intro with (pre := []) (post := [Enter r; Load true]).
  - lia.
  - exact T.
  - constructor.
  - repeat constructor.
  - intros _. constructor.
  - intros _. exists (loads s). split; [lia | assumption].
Qed.

Lemma entered_unobserved r s :
  sticky -> abort (loads s) = false -> ~ observed (entered r s).
Proof.
  intros Hs Ha (n & Hn & Hb). destruct (entered_spec r s) as (_ & _ & _ & _ & L).
  rewrite L in Hn. rewrite (Hs n (loads s)) in Ha; [discriminate | lia | assumption].
Qed.

Lemma winds_down_entered_unset r s :
  sticky -> abort (loads s) = false -> winds_down s (entered r s).
Proof.
  intros Hs Ha. destruct (entered_spec r s) as (T & _ & _ & _ & L).
  rewrite Ha in T.
  apply winds_down_intro with (pre := [Enter r; Load false]) (post := []).
  - lia.
  - exact T.
  - repeat constructor; discriminate.
  - constructor.
  - intros Ho. rewrite (observed_set Hs Ho) in Ha. discriminate.
  - congruence.
Qed.

Lemma recurse_winds_down r s : sticky -> winds_down s (recurse r s).
Proof.
  intros Hs.
  assert (Hev : forall r s, abort (loads s) = false ->
            winds_down s (evaluated r s) /\ ~ observed (evaluated r s)).
  { intros r0 s0 Ha. pose proof (@entered_unobserved r0 s0 Hs Ha) as Hn. split.
    - eapply winds_down_trans; [now apply winds_down_entered_unset |].
      apply winds_down_live; [assumption | reflexivity |].
      exists [EvalInterval r0]. split; [reflexivity |].
      repeat constructor; discriminate.
    - exact Hn. }
  apply recurse_elim with (P := fun _ s s' => winds_down s s'); clear r s.
  - intros r s Ha. now apply winds_down_entered_set.
  - intros r s Ha _. now apply winds_down_entered_unset.
  - intros r s Ha _ _.
    eapply winds_down_trans; [now apply winds_down_entered_unset |].
    apply winds_down_live; [now apply entered_unobserved | apply pixels_frame |].
    destruct (pixels_kind r (entered r s)) as (evs & T & F).
    exists evs. split; [assumption |]. eapply Forall_impl; [|exact F].
    intros e He. destruct e; simpl in He; try tauto; discriminate.
  - intros r s Ha _ _ _. destruct (Hev r s Ha) as [H1 H2].
    eapply winds_down_trans; [exact H1 |].
    apply winds_down_live; [assumption | reflexivity |].
    exists [Fill r]. split; [reflexivity | repeat constructor; discriminate].
  - intros r s Ha _ _ _ _. now apply Hev.
  - intros r s s2 s3 Ha _ _ _ _ _ H2 H3. destruct (Hev r s Ha) as [H1 Hn].
    eapply winds_down_trans; [exact H1 |].
    apply winds_down_trans with (s2 := push (evaluated r s)).
    { apply winds_down_live; [assumption | reflexivity |].
      exists [Push]. split; [reflexivity | repeat constructor; discriminate]. }
    eapply winds_down_trans; [exact H2 |].
    eapply winds_down_trans; [exact H3 | apply winds_down_pop].
  - intros r s Ha _ _ _ _ _. destruct (Hev r s Ha) as [H1 Hn].
    eapply winds_down_trans; [exact H1 |].
    apply winds_down_trans with (s2 := push (evaluated r s)).
    { apply winds_down_live; [assumption | reflexivity |].
      exists [Push]. split; [reflexivity | repeat constructor; discriminate]. }
    assert (Hn1 : ~ observed (push (evaluated r s)))
      by (apply unobserved_same with (s := evaluated r s);
          [reflexivity | assumption]).
    generalize dependent (push (evaluated r s)). intros s1 Hn1.
    apply winds_down_live; [assumption | reflexivity |].
    exists [AssertFailed]. split; [reflexivity | repeat constructor; discriminate].
Qed.

Lemma replay_quiet_depth post : Forall quiet post ->
  forall img, replay_all_depth post img = img.
Proof.
  induction 1 as [|e post He _ IH]; intros img; [reflexivity |].
  unfold replay_all_depth in *. simpl. rewrite IH.
  destruct e; try reflexivity; contradiction.
Qed.

Lemma replay_quiet_norm post : Forall quiet post ->
  forall img, replay_all_norm post img = img.
Proof.
  induction 1 as [|e post He _ IH]; intros img; [reflexivity |].
  unfold replay_all_norm in *. simpl. rewrite IH.
  destruct e; try reflexivity; contradiction.
Qed.

(** C7 (as amended): a call of [recurse] that finds the cancellation flag
    set returns with both images as they were. Consequently, with a flag
    that stays set once set, the events of a render split into a part in
    which the flag is never found set, followed by a part without any write:
    the depth image returned is the all-minus-infinity image with the writes
    of the first part replayed on it. The normal image returned is the
    all-zero image with the writes of the first part replayed on it, except
    that with [clip] the pixels whose depth is the top of the region hold
    the +Z colour: [Render] stores it after the recursion has returned,
    cancelled or not. A render whose flag is set from its first read leaves
    every pixel at its sentinel. *)
Theorem cancelled_calls_leave_the_images :
  (forall r s, abort (loads s) = true ->
     recurse r s = entered r s /\
     depth (recurse r s) = depth s /\ norm (recurse r s) = norm s) /\
  (sticky ->
   forall r clip s, exists pre post,
     trace (Render r clip s) = trace s ++ pre ++ post /\
     Forall unset pre /\ Forall quiet post /\
     depth (Render r clip s) = replay_all_depth pre (fun _ _ => NegInf) /\
     forall y x,
       norm (Render r clip s) y x =
         if clip && eqb (replay_all_depth pre (fun _ _ => NegInf) y x) (top r)
         then PLUS_Z
         else replay_all_norm pre (fun _ _ => 0%Z) y x) /\
  (forall r clip s, abort (loads s) = true ->
     forall y x, depth (Render r clip s) y x = NegInf /\
                 norm (Render r clip s) y x = 0%Z).
Proof.
  split; [|split].
  - intros r s Ha. rewrite (recurse_cancelled r s Ha).
    destruct (entered_spec r s) as (_ & D & N & _). repeat split; assumption.
  - intros Hs r clip s. unfold Render.
    set (s0 := set_norm (fun _ _ => 0%Z) (set_depth (fun _ _ => NegInf) s)).
    destruct (recurse_winds_down r s0 Hs) as (_ & pre & post & T & U & Q & _).
    destruct (recurse_coherent r s0) as (evs & T' & D & N).
    rewrite T in T'. apply app_inv_head in T'. subst evs.
    unfold replay_all_depth in D. rewrite fold_left_app in D.
    fold (replay_all_depth pre (depth s0)) in D.
    fold (replay_all_depth post (replay_all_depth pre (depth s0))) in D.
    rewrite (replay_quiet_depth Q) in D.
    unfold replay_all_norm in N. rewrite fold_left_app in N.
    fold (replay_all_norm pre (norm s0)) in N.
    fold (replay_all_norm post (replay_all_norm pre (norm s0))) in N.
    rewrite (replay_quiet_norm Q) in N.
    exists pre, post.
    destruct clip; st_simpl; rewrite ?D, ?N;
      (split; [exact T |]); (split; [exact U |]); (split; [exact Q |]);
      (split; [reflexivity |]); intros y x; reflexivity.
  - intros r clip s Ha y x. unfold Render.
    rewrite recurse_cancelled by (st_simpl; exact Ha).
    match goal with |- context [entered r ?s0] =>
      destruct (entered_spec r s0) as (_ & D & N & _) end.
    destruct clip; st_simpl; rewrite ?D, ?N; st_simpl; split; reflexivity.
Qed.

(** *** Determinism *)

Lemma run_fold_det (gs1 gs2 : nat -> Pack.Gradient) (l : list nat) :
  forall s1 s2,
  (forall i, In i l ->
     xs s1 i = xs s2 i /\ ys s1 i = ys s2 i /\ gs1 i = gs2 i) ->
  norm s1 = norm s2 ->
  norm (fold_left
          (fun s i =>
             emit (WriteNormal (ys s i) (xs s i) (colour (gs1 i)))
               (set_norm (write (ys s i) (xs s i) (colour (gs1 i)) (norm s)) s))
          l s1) =
  norm (fold_left
          (fun s i =>
             emit (WriteNormal (ys s i) (xs s i) (colour (gs2 i)))
               (set_norm (write (ys s i) (xs s i) (colour (gs2 i)) (norm s)) s))
          l s2).
Proof.
  induction l as [|a l IH]; intros s1 s2 H N; simpl; [assumption |].
  apply IH.
  - intros i Hi. st_simpl. apply H. now right.
  - st_simpl. destruct (H a (or_introl eq_refl)) as (A & B & C).
    now rewrite A, B, C, N.
Qed.

Lemma run_det s1 s2 :
  same_images s1 s2 -> same_staging s1 s2 ->
  same_images (run s1) (run s2) /\ same_staging (run s1) (run s2).
Proof.
  intros (D & N & A) (Ix & C & Hst).
  destruct (run_frame s1) as (D1 & (A1 & _) & _ & _ & _ & I1).
  destruct (run_frame s2) as (D2 & (A2 & _) & _ & _ & _ & I2).
  split; [split; [|split] | split; [|split]]; try congruence;
    try reflexivity.
  - unfold run. st_simpl. rewrite <- C. apply run_fold_det.
    + intros i Hi. apply in_seq in Hi. st_simpl.
      assert (Hlt : i < norm_count s1) by lia.
      pose proof (Hst i Hlt) as HH. destruct HH as (E1 & E2 & E3).
      repeat split; try assumption. unfold evalCore, Result.get.
      now rewrite E3, A.
    + st_simpl. exact N.
  - rewrite !run_norm_count. intros i Hi. lia.
Qed.

Lemma voxel_det r out i j k s1 s2 :
  same_images s1 s2 -> same_staging s1 s2 ->
  snd (voxel r out i j k s1) = snd (voxel r out i j k s2) /\
  same_images (fst (voxel r out i j k s1)) (fst (voxel r out i j k s2)) /\
  same_staging (fst (voxel r out i j k s1)) (fst (voxel r out i j k s2)).
Proof.
  intros (D & N & A) (Ix & C & Hst). rewrite !voxel_eq.
  assert (Eh : hit r out i j k s2 = hit r out i j k s1)
    by (unfold hit; now rewrite Ix, D).
  rewrite Eh. destruct (hit r out i j k s1); cbn [fst snd].
  - assert (H : same_images (stage r i j k s1) (stage r i j k s2) /\
                same_staging (stage r i j k s1) (stage r i j k s2)).
    { unfold stage. split; [split; [|split] | split; [|split]]; st_simpl;
        try congruence.
      intros n Hn. unfold store, Result.set. rewrite <- C.
      destruct (Nat.eqb n (norm_count s1)) eqn:E; [repeat split |].
      apply Nat.eqb_neq in E. apply Hst. lia. }
    destruct H as [H1 H2]. rewrite <- C.
    destruct (Nat.eqb (S (norm_count s1)) NUM_POINTS).
    + split; [reflexivity |]. now apply run_det.
    + split; [reflexivity |]. split; assumption.
  - split; [reflexivity |]. st_simpl.
    split; [split; [|split] | split; [|split]]; st_simpl; try congruence.
    exact Hst.
Qed.

Lemma column_det r out i j n : forall k s1 s2,
  same_images s1 s2 -> same_staging s1 s2 ->
  same_images (column r out i j n k s1) (column r out i j n k s2) /\
  same_staging (column r out i j n k s1) (column r out i j n k s2).
Proof.
  induction n as [|n IH]; intros k s1 s2 H1 H2; simpl; [split; assumption |].
  destruct (voxel_det r out i j k H1 H2) as (B & H3 & H4).
  destruct (voxel r out i j k s1) as [s1' b1].
  destruct (voxel r out i j k s2) as [s2' b2]. cbn [fst snd] in *. subst b2.
  destruct b1; [split; assumption | now apply IH].
Qed.

Lemma fold_left_det (A : Type) (R : State -> State -> Prop)
  (f : State -> A -> State) (l : list A) :
  (forall s1 s2 a, R s1 s2 -> R (f s1 a) (f s2 a)) ->
  forall s1 s2, R s1 s2 -> R (fold_left f l s1) (fold_left f l s2).
Proof.
  intros Hf. induction l as [|a l IH]; intros s1 s2 H; simpl; [assumption |].
  apply IH, Hf, H.
Qed.

Lemma pixels_det r s1 s2 :
  same_images s1 s2 -> same_images (pixels r s1) (pixels r s2).
Proof.
  intros (D & N & A). unfold pixels. rewrite <- A.
  set (out := eval_region (active s1) r).
  set (a1 := set_norm_count 0 (set_index 0 (emit (EvalVoxels r) s1))).
  set (a2 := set_norm_count 0 (set_index 0 (emit (EvalVoxels r) s2))).
  assert (H : same_images a1 a2 /\ same_staging a1 a2).
  { subst a1 a2. split; [split; [|split] | split; [|split]]; st_simpl;
      try assumption; try reflexivity. intros i Hi. lia. }
  clearbody a1 a2.
  match goal with |- context [fold_left ?f ?l a1] =>
    assert (H' : same_images (fold_left f l a1) (fold_left f l a2) /\
                 same_staging (fold_left f l a1) (fold_left f l a2)) end.
  { apply (@fold_left_det nat
             (fun s s' => same_images s s' /\ same_staging s s'));
      [|assumption].
    intros b1 b2 i0 Hb.
    apply (@fold_left_det nat
             (fun s s' => same_images s s' /\ same_staging s s'));
      [|assumption].
    intros c1 c2 j0 [Hc1 Hc2]. now apply column_det. }
  match goal with |- context [fold_left ?f ?l a1] =>
    set (b1 := fold_left f l a1) in *; set (b2 := fold_left f l a2) in * end.
  destruct H' as [H1 H2]. destruct H2 as (I' & C' & Hst').
  rewrite <- C'. destruct (0 <? norm_count b1); [|assumption].
  apply run_det; [assumption | split; [|split]; assumption].
Qed.

Lemma recurse_fuel_det n :
  (forall i, abort i = false) ->
  forall r s1 s2, same_images s1 s2 ->
    same_images (recurse_fuel n r s1) (recurse_fuel n r s2).
Proof.
  intros Hnever. induction n as [|n IH]; intros r s1 s2 H; [assumption |].
  simpl. unfold recurse_body, load. st_simpl. rewrite !Hnever.
  destruct H as (D & N & A). rewrite <- D.
  destruct (block_all_ge _ _ _ _ _ _); [repeat split; assumption |].
  destruct (voxels r <=? count_double).
  { apply pixels_det. repeat split; assumption. }
  unfold eval_interval. st_simpl. rewrite <- A.
  destruct (upper _ <? 0)%Z.
  { unfold fill. st_simpl. rewrite D. repeat split; assumption. }
  destruct (lower _ <=? 0)%Z; [|repeat split; assumption].
  destruct (canSplit r).
  - assert (H : forall a b, same_images a b -> same_images (pop a) (pop b)).
    { intros a b (D' & N' & A'). unfold pop. st_simpl. rewrite A'.
      repeat split; assumption. }
    apply H, IH, IH. unfold push. st_simpl. rewrite A.
    repeat split; assumption.
  - unfold push. st_simpl. rewrite A. repeat split; assumption.
Qed.

(** C9: with a cancellation flag that is never set, the images returned by
    [Render] are a function of the graph, the region and the clip flag alone:
    they do not depend on what the evaluator's buffers, the uninitialised
    arrays of [pixels] or the trace hold when the render starts, and (for a
    batch width of at least one voxel) running the render again on the state
    left by a first run gives the same two images. *)
Theorem render_is_deterministic :
  (forall i, abort i = false) ->
  (forall r clip s1 s2, active s1 = active s2 ->
     depth (Render r clip s1) = depth (Render r clip s2) /\
     norm (Render r clip s1) = norm (Render r clip s2)) /\
  (0 < count_double ->
   forall r clip s,
     depth (Render r clip (Render r clip s)) = depth (Render r clip s) /\
     norm (Render r clip (Render r clip s)) = norm (Render r clip s)).
Proof.
  intros Hnever.
  assert (H : forall r clip s1 s2, active s1 = active s2 ->
     depth (Render r clip s1) = depth (Render r clip s2) /\
     norm (Render r clip s1) = norm (Render r clip s2)).
  { intros r clip s1 s2 A. unfold Render.
    set (a1 := set_norm (fun _ _ => 0%Z) (set_depth (fun _ _ => NegInf) s1)).
    set (a2 := set_norm (fun _ _ => 0%Z) (set_depth (fun _ _ => NegInf) s2)).
    assert (E : same_images (recurse r a1) (recurse r a2)).
    { unfold recurse. apply recurse_fuel_det; [assumption |].
      subst a1 a2. repeat split. st_simpl. exact A. }
    destruct E as (D & N & _).
    destruct clip; st_simpl; rewrite ?D, ?N; split; reflexivity. }
  split; [exact H |].
  intros HW r clip s. apply H. unfold Render.
  match goal with |- context [recurse r ?a] =>
    destruct (recurse_balanced r a HW) as (_ & _ & _ & A) end.
  destruct clip; st_simpl; rewrite A; reflexivity.
Qed.

(** *** Exhaustive evaluation: the highest voxel inside *)

Lemma join_NegInf_r d : join d NegInf = d.
Proof. now destruct d. Qed.

Lemma join_assoc a b c : join a (join b c) = join (join a b) c.
Proof. destruct a, b, c; simpl; try reflexivity. f_equal. lia. Qed.

Lemma join_absorb a b : le b a -> join a b = a.
Proof. destruct a, b; simpl; try tauto. intros H. f_equal. lia. Qed.

Lemma join_le a b c : le a c -> le b c -> le (join a b) c.
Proof. destruct a, b, c; simpl; try tauto. lia. Qed.

Lemma max_join d z : max d z = join d (Fin z).
Proof. now destruct d. Qed.

Lemma geb_le d z : geb d z = true <-> le (Fin z) d.
Proof. destruct d; simpl; [split; [discriminate | tauto] | apply Z.leb_le]. Qed.

Lemma ltb_ge d z : ltb d z = false -> le (Fin z) d.
Proof. destruct d; simpl; [discriminate |]. intros H. apply Z.ltb_ge in H. lia. Qed.

Lemma ltb_join d z : ltb d z = true -> join d (Fin z) = Fin z.
Proof.
  destruct d; simpl; [reflexivity |]. intros H. apply Z.ltb_lt in H.
  f_equal. lia.
Qed.

Lemma highest_inside_bound v p n zb :
  (forall k, k < n -> (p k <= zb)%Z) -> le (highest_inside v p n) (Fin zb).
Proof.
  induction n as [|n IH]; intros H; cbn [highest_inside]; [exact I |].
  destruct (v n <? 0)%Z; [|apply IH; intros; apply H; lia].
  apply join_le; [cbn [le]; apply H; lia | apply IH; intros; apply H; lia].
Qed.

Lemma highest_inside_ext v p v' p' n :
  (forall k, k < n -> v k = v' k /\ p k = p' k) ->
  highest_inside v p n = highest_inside v' p' n.
Proof.
  induction n as [|n IH]; intros H; cbn [highest_inside]; [reflexivity |].
  destruct (H n) as [E1 E2]; [lia |]. rewrite E1, E2, IH; [reflexivity |].
  intros; apply H; lia.
Qed.

Lemma highest_inside_app v p m n :
  highest_inside v p (m + n) =
    join (highest_inside (fun k => v (m + k)) (fun k => p (m + k)) n)
         (highest_inside v p m).
Proof.
  induction n as [|n IH].
  - rewrite Nat.add_0_r. reflexivity.
  - rewrite Nat.add_succ_r. cbn [highest_inside]. rewrite IH.
    destruct (v (m + n)%nat <? 0)%Z; [apply join_assoc | reflexivity].
Qed.

Lemma highest_inside_none v p n :
  (forall k, k < n -> (0 <= v k)%Z) -> highest_inside v p n = NegInf.
Proof.
  induction n as [|n IH]; intros H; cbn [highest_inside]; [reflexivity |].
  assert (E : (v n <? 0)%Z = false) by (apply Z.ltb_ge, H; lia).
  rewrite E. apply IH. intros; apply H; lia.
Qed.

Lemma highest_inside_top v p n :
  (forall k k', k <= k' -> (p k <= p k')%Z) ->
  (v n < 0)%Z -> highest_inside v p (S n) = Fin (p n).
Proof.
  intros Hp Hv. cbn [highest_inside]. apply Z.ltb_lt in Hv. rewrite Hv.
  apply join_absorb. apply highest_inside_bound. intros k Hk. apply Hp. lia.
Qed.

Lemma pos_mono a k k' : (0 <= hstep a)%Z -> k <= k' -> (pos a k <= pos a k')%Z.
Proof. unfold pos. intros H Hk. nia. Qed.

Lemma pos_within a k :
  (0 <= hstep a)%Z -> k < size a -> within (interval a) (pos a k).
Proof.
  unfold within, interval, pos. cbn [lower upper]. intros H Hk. nia.
Qed.

Lemma covers_box r : upright r -> covers (box r) r.
Proof.
  intros (Hx & Hy & Hz) i j k Hi Hj Hk. unfold inside, box. cbn [fst snd].
  repeat split; apply pos_within; assumption.
Qed.

(** *** The flattened results of [Tree::eval(Region)] *)

Lemma flat_map_block_length (A B : Type) (f : A -> list B) (m : nat)
  (l : list A) :
  (forall a, length (f a) = m) -> length (flat_map f l) = length l * m.
Proof.
  intros H. induction l as [|a l IH]; simpl; [reflexivity |].
  now rewrite length_app, H, IH.
Qed.

Lemma flat_map_block_nth (A B : Type) (f : A -> list B) (m : nat) (d : B)
  (a0 : A) (l : list A) :
  (forall a, length (f a) = m) ->
  forall i k, i < length l -> k < m ->
    nth (i * m + k) (flat_map f l) d = nth k (f (nth i l a0)) d.
Proof.
  intros H. induction l as [|a l IH]; intros i k Hi Hk; simpl in Hi; [lia |].
  simpl flat_map. destruct i as [|i].
  - simpl. rewrite app_nth1; [reflexivity | rewrite H; assumption].
  - rewrite app_nth2 by (rewrite H; simpl; lia).
    rewrite H. replace (S i * m + k - m) with (i * m + k) by (simpl; lia).
    simpl nth. apply IH; [lia | assumption].
Qed.

Lemma map_nth_in (A B : Type) (g : A -> B) (l : list A) (d : B) (d0 : A) n :
  n < length l -> nth n (map g l) d = g (nth n l d0).
Proof.
  intros H. rewrite nth_indep with (d' := g d0) by (now rewrite length_map).
  apply map_nth.
Qed.

Lemma iterate_xyz_length r : length (iterate_xyz r) = voxels r.
Proof.
  unfold iterate_xyz, voxels.
  rewrite flat_map_block_length with (m := size (Y r) * size (Z r)).
  - rewrite length_seq. lia.
  - intros i. rewrite flat_map_block_length with (m := size (Z r)).
    + now rewrite length_seq.
    + intros j. now rewrite length_map, length_seq.
Qed.

Lemma iterate_xyz_nth r i j k :
  i < size (X r) -> j < size (Y r) -> k < size (Z r) ->
  nth ((i * size (Y r) + j) * size (Z r) + k) (iterate_xyz r) (0, 0, 0)
  = (i, j, k).
Proof.
  intros Hi Hj Hk. unfold iterate_xyz.
  replace ((i * size (Y r) + j) * size (Z r) + k)
    with (i * (size (Y r) * size (Z r)) + (j * size (Z r) + k)) by lia.
  rewrite flat_map_block_nth with (m := size (Y r) * size (Z r)) (a0 := 0).
  - rewrite seq_nth by assumption. cbn [Nat.add].
    rewrite flat_map_block_nth with (m := size (Z r)) (a0 := 0).
    + rewrite seq_nth by assumption. cbn [Nat.add].
      rewrite nth_indep with (d' := (fun k0 => (i, j, k0)) 0)
        by (now rewrite length_map, length_seq).
      rewrite map_nth, seq_nth by assumption. reflexivity.
    + intros j0. now rewrite length_map, length_seq.
    + now rewrite length_seq.
    + assumption.
  - intros i0. rewrite flat_map_block_length with (m := size (Z r)).
    + now rewrite length_seq.
    + intros j0. now rewrite length_map, length_seq.
  - now rewrite length_seq.
  - assert (j * size (Z r) + k < S j * size (Z r)) by (simpl; lia).
    assert (S j * size (Z r) <= size (Y r) * size (Z r))
      by (apply Nat.mul_le_mono_r; lia).
    lia.
Qed.

Lemma eval_region_nth act r i j k :
  i < size (X r) -> j < size (Y r) -> k < size (Z r) ->
  nth ((i * size (Y r) + j) * size (Z r) + k) (eval_region act r) 0%Z
  = column_values act r i j (size (Z r) - k - 1).
Proof.
  intros Hi Hj Hk. unfold eval_region.
  assert (L : (i * size (Y r) + j) * size (Z r) + k < voxels r).
  { unfold voxels.
    assert ((i * size (Y r) + j) * size (Z r) + k
            < S (i * size (Y r) + j) * size (Z r)) by (simpl; lia).
    assert (S (i * size (Y r) + j) <= size (X r) * size (Y r)).
    { assert (S i * size (Y r) <= size (X r) * size (Y r))
        by (apply Nat.mul_le_mono_r; lia). simpl in *. lia. }
    assert (S (i * size (Y r) + j) * size (Z r)
            <= size (X r) * size (Y r) * size (Z r))
      by (apply Nat.mul_le_mono_r; assumption).
    lia. }
  rewrite map_nth_in with (d0 := (0, 0, 0))
    by (now rewrite iterate_xyz_length).
  rewrite iterate_xyz_nth by assumption. reflexivity.
Qed.

(** *** What [pixels] writes to the depth image *)

Lemma column_scan r out i j v base n : forall s,
  (0 <= hstep (Z r))%Z -> n <= size (Z r) ->
  (forall k, k < size (Z r) ->
     nth (base + k) out 0%Z = v (size (Z r) - k - 1)) ->
  index s = base + (size (Z r) - n) ->
  index (column r out i j n (size (Z r) - n) s) = base + size (Z r) /\
  forall y x,
    depth (column r out i j n (size (Z r) - n) s) y x =
      if Nat.eqb y (min (Y r) + j) && Nat.eqb x (min (X r) + i)
      then join (depth s y x) (highest_inside v (pos (Z r)) n)
      else depth s y x.
Proof.
  induction n as [|n IH]; intros s Hz Hn Hout Hidx.
  - cbn [column highest_inside]. split; [lia |]. intros y x.
    rewrite join_NegInf_r. now destruct (_ && _).
  - cbn [column]. rewrite voxel_eq. unfold hit.
    assert (Ek : size (Z r) - (size (Z r) - S n) - 1 = n) by lia.
    rewrite Hidx, Hout, Ek by lia.
    assert (Hp : forall k k', k <= k' -> (pos (Z r) k <= pos (Z r) k')%Z)
      by (intros; now apply pos_mono).
    destruct (v n <? 0)%Z eqn:Ev;
      [destruct (ltb (depth s (min (Y r) + j) (min (X r) + i))
                     (pos (Z r) n)) eqn:El |]; cbn [andb].
    + destruct (stage_spec r i j (size (Z r) - S n) s)
        as (_ & D & _ & _ & _ & Ix).
      rewrite Ek in D.
      assert (E : forall s', depth s' = depth (stage r i j (size (Z r) - S n) s)
                  -> index s' = index (stage r i j (size (Z r) - S n) s) ->
                  index s' = base + size (Z r) /\
                  forall y x, depth s' y x =
                    if Nat.eqb y (min (Y r) + j) && Nat.eqb x (min (X r) + i)
                    then join (depth s y x)
                              (highest_inside v (pos (Z r)) (S n))
                    else depth s y x).
      { intros s' Ds Is. split; [rewrite Is, Ix, Hidx; lia |].
        intros y x. rewrite Ds, D. unfold write.
        destruct (Nat.eqb y _ && Nat.eqb x _) eqn:Eyx; [|reflexivity].
        apply andb_true_iff in Eyx as [Ey Ex].
        apply Nat.eqb_eq in Ey, Ex. subst y x.
        apply Z.ltb_lt in Ev.
        rewrite (highest_inside_top v (pos (Z r)) n Hp Ev).
        symmetry. now apply ltb_join. }
      destruct (Nat.eqb (S (norm_count s)) NUM_POINTS).
      * destruct (run_frame (stage r i j (size (Z r) - S n) s))
          as (D' & _ & _ & _ & _ & I').
        apply E; assumption.
      * apply E; reflexivity.
    + replace (S (size (Z r) - S n)) with (size (Z r) - n) by lia.
      destruct (IH (set_index (S (base + (size (Z r) - S n))) s))
        as [I1 D1]; try assumption; [lia | st_simpl; lia |].
      split; [exact I1 |]. intros y x. rewrite D1. st_simpl.
      destruct (Nat.eqb y _ && Nat.eqb x _) eqn:Eyx; [|reflexivity].
      apply andb_true_iff in Eyx as [Ey Ex].
      apply Nat.eqb_eq in Ey, Ex. subst y x.
      cbn [highest_inside]. rewrite Ev, join_assoc.
      f_equal. symmetry. apply join_absorb. now apply ltb_ge.
    + replace (S (size (Z r) - S n)) with (size (Z r) - n) by lia.
      destruct (IH (set_index (S (base + (size (Z r) - S n))) s))
        as [I1 D1]; try assumption; [lia | st_simpl; lia |].
      split; [exact I1 |]. intros y x. rewrite D1. st_simpl.
      cbn [highest_inside]. rewrite Ev. reflexivity.
Qed.

Lemma rows_scan r act out i :
  (0 <= hstep (Z r))%Z -> i < size (X r) ->
  (forall i j k, i < size (X r) -> j < size (Y r) -> k < size (Z r) ->
     nth ((i * size (Y r) + j) * size (Z r) + k) out 0%Z
     = column_values act r i j (size (Z r) - k - 1)) ->
  forall n j0 s,
  j0 + n <= size (Y r) -> index s = (i * size (Y r) + j0) * size (Z r) ->
  index (fold_left (fun s j => column r out i j (size (Z r)) 0 s)
                   (seq j0 n) s)
    = (i * size (Y r) + (j0 + n)) * size (Z r) /\
  forall y x,
    depth (fold_left (fun s j => column r out i j (size (Z r)) 0 s)
                     (seq j0 n) s) y x =
      if Nat.eqb x (min (X r) + i) && (min (Y r) + j0 <=? y)
         && (y <? min (Y r) + j0 + n)
      then join (depth s y x)
                (highest_inside (column_values act r i (y - min (Y r)))
                                (pos (Z r)) (size (Z r)))
      else depth s y x.
Proof.
  intros Hz Hi Hout. induction n as [|n IH]; intros j0 s Hj Hidx.
  - cbn [seq fold_left]. split; [rewrite Hidx; f_equal; lia |].
    intros y x. bool_cases; try reflexivity; lia.
  - cbn [seq fold_left].
    pose proof (@column_scan r out i j0 (column_values act r i j0)
                  ((i * size (Y r) + j0) * size (Z r)) (size (Z r)) s Hz
                  (Nat.le_refl _)) as Hc.
    rewrite Nat.sub_diag in Hc.
    destruct Hc as [I1 D1];
      [intros k Hk; apply Hout; [assumption | lia | assumption] | lia |].
    destruct (IH (S j0) (column r out i j0 (size (Z r)) 0 s)) as [I2 D2];
      [lia | rewrite I1; simpl; lia |].
    split; [rewrite I2; f_equal; lia |].
    intros y x. rewrite D2, !D1.
    bool_cases; try reflexivity; try lia.
    replace (y - min (Y r)) with j0 by lia. reflexivity.
Qed.

Lemma cols_scan r act out :
  (0 <= hstep (Z r))%Z ->
  (forall i j k, i < size (X r) -> j < size (Y r) -> k < size (Z r) ->
     nth ((i * size (Y r) + j) * size (Z r) + k) out 0%Z
     = column_values act r i j (size (Z r) - k - 1)) ->
  forall n i0 s,
  i0 + n <= size (X r) -> index s = i0 * size (Y r) * size (Z r) ->
  index (fold_left
           (fun s i =>
              fold_left (fun s j => column r out i j (size (Z r)) 0 s)
                        (seq 0 (size (Y r))) s)
           (seq i0 n) s)
    = (i0 + n) * size (Y r) * size (Z r) /\
  forall y x,
    depth (fold_left
             (fun s i =>
                fold_left (fun s j => column r out i j (size (Z r)) 0 s)
                          (seq 0 (size (Y r))) s)
             (seq i0 n) s) y x =
      if (min (X r) + i0 <=? x) && (x <? min (X r) + i0 + n)
         && (min (Y r) <=? y) && (y <? min (Y r) + size (Y r))
      then join (depth s y x)
                (highest_inside
                   (column_values act r (x - min (X r)) (y - min (Y r)))
                   (pos (Z r)) (size (Z r)))
      else depth s y x.
Proof.
  intros Hz Hout. induction n as [|n IH]; intros i0 s Hi Hidx.
  - cbn [seq fold_left]. split; [rewrite Hidx; f_equal; f_equal; lia |].
    intros y x. bool_cases; try reflexivity; lia.
  - cbn [seq fold_left].
    destruct (@rows_scan r act out i0 Hz ltac:(lia) Hout (size (Y r)) 0 s)
      as [I1 D1]; [lia | rewrite Hidx; f_equal; lia |].
    match goal with |- context [fold_left _ (seq (S i0) n) ?a] =>
      set (s1 := a) in * end.
    destruct (IH (S i0) s1) as [I2 D2];
      [lia | rewrite I1; f_equal; simpl; lia |].
    split; [rewrite I2; f_equal; f_equal; lia |].
    intros y x. rewrite D2, !D1. rewrite !Nat.add_0_r.
    bool_cases; try reflexivity; try lia.
    replace (x - min (X r)) with i0 by lia. reflexivity.
Qed.

Lemma pixels_depth r s :
  (0 <= hstep (Z r))%Z ->
  forall y x,
    depth (pixels r s) y x = join (depth s y x) (target (active s) r y x).
Proof.
  intros Hz y x. unfold pixels.
  set (out := eval_region (active s) r).
  set (s1 := set_norm_count 0 (set_index 0 (emit (EvalVoxels r) s))).
  destruct (@cols_scan r (active s) out Hz
              (fun i j k Hi Hj Hk => eval_region_nth (active s) r Hi Hj Hk)
              (size (X r)) 0 s1) as [_ D]; [lia | reflexivity |].
  match goal with |- context [fold_left ?f ?l s1] =>
    set (s2 := fold_left f l s1) in * end.
  assert (E : depth (if 0 <? norm_count s2 then run s2 else s2) = depth s2).
  { destruct (0 <? norm_count s2); [apply run_frame | reflexivity]. }
  rewrite E, D. subst s1. st_simpl. unfold target, in_block.
  rewrite !Nat.add_0_r.
  bool_cases; try reflexivity; try lia; now rewrite join_NegInf_r.
Qed.

(** *** Splitting a region *)

Lemma split_range_cut a :
  cut a (fst (split_range a)) (snd (split_range a)) (size a / 2).
Proof.
  unfold cut, split_range. cbn [fst snd]. repeat split.
  apply Nat.Div0.div_le_upper_bound. lia.
Qed.

Lemma cut_spec a a1 a2 h :
  cut a a1 a2 h ->
  (forall k, pos a1 k = pos a k) /\ (forall k, pos a2 k = pos a (h + k)) /\
  size a1 = h /\ size a2 = size a - h /\ min a1 = min a /\
  min a2 = min a + h /\ hstep a1 = hstep a /\ hstep a2 = hstep a /\
  h <= size a.
Proof.
  intros (Hh & -> & ->). unfold pos. cbn [origin hstep size min].
  repeat split; try assumption. intros k. lia.
Qed.

Lemma split_cut r :
  (X (fst (split r)) = X r /\ X (snd (split r)) = X r /\
   Y (fst (split r)) = Y r /\ Y (snd (split r)) = Y r /\
   exists h, cut (Z r) (Z (fst (split r))) (Z (snd (split r))) h) \/
  (X (fst (split r)) = X r /\ X (snd (split r)) = X r /\
   Z (fst (split r)) = Z r /\ Z (snd (split r)) = Z r /\
   exists h, cut (Y r) (Y (fst (split r))) (Y (snd (split r))) h) \/
  (Y (fst (split r)) = Y r /\ Y (snd (split r)) = Y r /\
   Z (fst (split r)) = Z r /\ Z (snd (split r)) = Z r /\
   exists h, cut (X r) (X (fst (split r))) (X (snd (split r))) h).
Proof.
  unfold split. destruct (_ && _); [|destruct (_ <? _)]; cbn [fst snd X Y Z].
  - left. repeat split. eexists. apply split_range_cut.
  - right; left. repeat split. eexists. apply split_range_cut.
  - right; right. repeat split. eexists. apply split_range_cut.
Qed.

Lemma split_upright r :
  upright r -> upright (fst (split r)) /\ upright (snd (split r)).
Proof.
  intros (Hx & Hy & Hz). unfold upright.
  destruct (split_cut r)
    as [(E1 & E2 & E3 & E4 & h & C) | [(E1 & E2 & E3 & E4 & h & C)
                                      | (E1 & E2 & E3 & E4 & h & C)]];
    destruct (cut_spec C) as (_ & _ & _ & _ & _ & _ & H1 & H2 & _);
    rewrite E1, E2, E3, E4, H1, H2; tauto.
Qed.

Lemma split_covers b r :
  covers b r -> covers b (fst (split r)) /\ covers b (snd (split r)).
Proof.
  intros H. unfold covers.
  destruct (split_cut r)
    as [(E1 & E2 & E3 & E4 & h & C) | [(E1 & E2 & E3 & E4 & h & C)
                                      | (E1 & E2 & E3 & E4 & h & C)]];
    destruct (cut_spec C) as (P1 & P2 & S1 & S2 & _ & _ & _ & _ & Hh);
    rewrite E1, E2, E3, E4, S1, S2; split; intros i j k Hi Hj Hk;
    rewrite ?P1, ?P2; apply H; lia.
Qed.

Lemma target_split act r y x :
  target act r y x =
    join (target act (snd (split r)) y x) (target act (fst (split r)) y x).
Proof.
  unfold target, column_values, in_block.
  destruct (split_cut r)
    as [(E1 & E2 & E3 & E4 & h & C) | [(E1 & E2 & E3 & E4 & h & C)
                                      | (E1 & E2 & E3 & E4 & h & C)]];
    destruct (cut_spec C) as (P1 & P2 & S1 & S2 & M1 & M2 & _ & _ & Hh);
    rewrite E1, E2, E3, E4, S1, S2, ?M1, ?M2.
  - bool_cases; try reflexivity.
    replace (size (Z r)) with (h + (size (Z r) - h)) at 1 by lia.
    rewrite highest_inside_app. f_equal.
    + apply highest_inside_ext. intros k Hk. now rewrite P2.
    + apply highest_inside_ext. intros k Hk. now rewrite P1.
  - bool_cases; try reflexivity; try lia.
    + rewrite join_NegInf_r. apply highest_inside_ext. intros k Hk.
      rewrite P2. split; [|reflexivity]. f_equal. f_equal. lia.
    + cbn [join]. apply highest_inside_ext. intros k Hk.
      rewrite P1. split; reflexivity.
  - bool_cases; try reflexivity; try lia.
    + rewrite join_NegInf_r. apply highest_inside_ext. intros k Hk.
      rewrite P2. split; [|reflexivity]. f_equal. f_equal. lia.
    + cbn [join]. apply highest_inside_ext. intros k Hk.
      rewrite P1. split; reflexivity.
Qed.

(** *** The adaptive renderer against exhaustive evaluation *)

Lemma block_all_ge_true img r0 c0 rows cols z :
  block_all_ge img r0 c0 rows cols z = true ->
  forall y x, in_block r0 c0 rows cols y x = true -> geb (img y x) z = true.
Proof.
  unfold block_all_ge, in_block. intros H y x Hin.
  repeat (apply andb_true_iff in Hin as [Hin ?]).
  apply Nat.leb_le in Hin.
  repeat match goal with
  | H : (_ <=? _) = true |- _ => apply Nat.leb_le in H
  | H : (_ <? _) = true |- _ => apply Nat.ltb_lt in H
  end.
  rewrite forallb_forall in H.
  specialize (H (y - r0)). rewrite forallb_forall in H.
  specialize (H ltac:(apply in_seq; lia) (x - c0) ltac:(apply in_seq; lia)).
  replace (r0 + (y - r0)) with y in H by lia.
  replace (c0 + (x - c0)) with x in H by lia. exact H.
Qed.

Lemma target_bound act r y x : upright r -> le (target act r y x) (Fin (top r)).
Proof.
  intros (_ & _ & Hz). unfold target, top.
  destruct (in_block _ _ _ _ y x); [|exact I].
  apply highest_inside_bound. intros k Hk. apply pos_mono; [assumption | lia].
Qed.

Lemma target_outside act r y x :
  in_block (min (Y r)) (min (X r)) (size (Y r)) (size (X r)) y x = false ->
  target act r y x = NegInf.
Proof. unfold target. now intros ->. Qed.

Lemma target_neutral act r y x :
  neutral -> (forall b, In b act -> covers b r) ->
  target act r y x = target [] r y x.
Proof.
  intros Hn Hc. unfold target, in_block. bool_cases; try reflexivity.
  apply highest_inside_ext. intros k Hk. split; [|reflexivity].
  unfold column_values. apply Hn. intros b Hb. apply (Hc b Hb); lia.
Qed.

Lemma target_full act r y x :
  upright r -> 0 < size (Z r) ->
  (forall i j k, i < size (X r) -> j < size (Y r) -> k < size (Z r) ->
     (column_values act r i j k < 0)%Z) ->
  in_block (min (Y r)) (min (X r)) (size (Y r)) (size (X r)) y x = true ->
  target act r y x = Fin (top r).
Proof.
  intros (_ & _ & Hz) Hs Hall Hin. unfold target, top. rewrite Hin.
  unfold in_block in Hin. repeat (apply andb_true_iff in Hin as [Hin ?]).
  repeat match goal with
  | H : (_ <=? _) = true |- _ => apply Nat.leb_le in H
  | H : (_ <? _) = true |- _ => apply Nat.ltb_lt in H
  end.
  destruct (size (Z r)) as [|n] eqn:E; [lia |].
  replace (S n - 1) with n by lia.
  apply highest_inside_top.
  - intros; now apply pos_mono.
  - apply Hall; lia.
Qed.

Lemma target_empty act r y x :
  (forall i j k, i < size (X r) -> j < size (Y r) -> k < size (Z r) ->
     (0 <= column_values act r i j k)%Z) ->
  target act r y x = NegInf.
Proof.
  intros Hall. unfold target, in_block. bool_cases; try reflexivity.
  apply highest_inside_none. intros k Hk. apply Hall; lia.
Qed.

Lemma voxels_pos_size r : 0 < voxels r -> 0 < size (Z r).
Proof.
  unfold voxels. destruct (size (Z r)); [rewrite Nat.mul_0_r |]; lia.
Qed.

Lemma recurse_exhaustive r s :
  sound -> neutral -> 0 < count_double -> (forall n, abort n = false) ->
  upright r -> (forall b, In b (active s) -> covers b r) ->
  (forall y x,
     depth (recurse r s) y x = join (depth s y x) (target [] r y x)) /\
  active (recurse r s) = active s.
Proof.
  intros Hsound Hneutral HW Hnever.
  apply recurse_elim with
    (P := fun r s s' =>
            upright r -> (forall b, In b (active s) -> covers b r) ->
            (forall y x, depth s' y x = join (depth s y x) (target [] r y x))
            /\ active s' = active s); clear r s.
  - intros r s Ha. rewrite Hnever in Ha. discriminate.
  - intros r s _ Ho Hup Hc.
    destruct (entered_spec r s) as (_ & D & _ & A & _).
    split; [|exact A]. intros y x. rewrite D. symmetry. apply join_absorb.
    destruct (in_block (min (Y r)) (min (X r)) (size (Y r)) (size (X r)) y x)
      eqn:Hin.
    + eapply dle_trans; [now apply target_bound |]. apply geb_le.
      unfold occluded in Ho. rewrite D in Ho.
      now apply (block_all_ge_true _ _ _ _ _ _ Ho).
    + rewrite target_outside by assumption. exact I.
  - intros r s _ _ _ Hup Hc.
    destruct (entered_spec r s) as (_ & D & _ & A & _).
    destruct (pixels_frame r (entered r s)) as (_ & A' & _).
    split; [|congruence]. intros y x.
    rewrite pixels_depth by apply Hup. rewrite D, A.
    f_equal. now apply target_neutral.
  - intros r s _ _ Hv Hu Hup Hc.
    destruct (evaluated_spec r s) as (_ & D & _ & A & _).
    split; [|exact A]. intros y x. unfold fill, block_max. st_simpl.
    rewrite D.
    destruct (in_block (min (Y r)) (min (X r)) (size (Y r)) (size (X r)) y x)
      eqn:Hin.
    + rewrite max_join. f_equal. symmetry.
      apply target_full; try assumption.
      * apply voxels_pos_size. lia.
      * intros i j k Hi Hj Hk. unfold column_values, bound in *.
        pose proof (covers_box Hup) as Hb.
        destruct (Hsound (active s) (box r) _ _ _ (Hb i j k Hi Hj Hk))
          as [_ H2]; [|lia].
        intros b' Hb'. now apply (Hc b' Hb').
    + rewrite target_outside by assumption. now rewrite join_NegInf_r.
  - intros r s _ _ Hv Hu Hl Hup Hc.
    destruct (evaluated_spec r s) as (_ & D & _ & A & _).
    split; [|exact A]. intros y x. rewrite D.
    rewrite target_empty; [now rewrite join_NegInf_r |].
    intros i j k Hi Hj Hk. unfold column_values, bound in *.
    pose proof (covers_box Hup) as Hb.
    destruct (Hsound (active s) (box r) _ _ _ (Hb i j k Hi Hj Hk))
      as [H1 _]; [|lia].
    intros b' Hb'. now apply (Hc b' Hb').
  - intros r s s2 s3 _ _ _ _ _ _ IH2 IH3 Hup Hc.
    destruct (evaluated_spec r s) as (_ & D & _ & A & L & _).
    destruct (split_upright Hup) as [U1 U2].
    assert (Hc' : forall b, In b (active (push (evaluated r s))) ->
                    covers b r).
    { unfold push. st_simpl. rewrite L, A. intros b [<- | Hb];
        [now apply covers_box | now apply Hc]. }
    destruct (IH2 U2) as [D2 A2];
      [intros b Hb; now apply split_covers, Hc' |].
    destruct (IH3 U1) as [D3 A3];
      [rewrite A2; intros b Hb; now apply split_covers, Hc' |].
    split.
    + intros y x. unfold pop. st_simpl. rewrite D3, D2.
      unfold push. st_simpl. rewrite D, <- join_assoc.
      f_equal. symmetry. apply target_split.
    + unfold pop. st_simpl. rewrite A3, A2. unfold push. st_simpl. exact A.
  - intros r s _ _ Hv _ _ Hcs. rewrite (interior_canSplit r HW Hv) in Hcs.
    discriminate.
Qed.

(** C1 (as amended): for an evaluator that keeps its contract (sound
    intervals, neutral deactivation), a batch width of at least one voxel, a
    region whose axes run upwards and a cancellation flag that is never set,
    the depth image returned by the adaptive renderer is, pixel for pixel,
    the depth image of the exhaustive per-voxel evaluation of the region. *)
Theorem adaptive_depth_is_exhaustive :
  sound -> neutral -> 0 < count_double -> (forall n, abort n = false) ->
  forall r clip s,
    upright r -> (forall b, In b (active s) -> covers b r) ->
    forall y x, depth (Render r clip s) y x = exhaustive_depth r y x.
Proof.
  intros Hsound Hneutral HW Hnever r clip s Hup Hc y x.
  unfold Render, exhaustive_depth.
  match goal with |- context [recurse r ?a] =>
    destruct (@recurse_exhaustive r a Hsound Hneutral HW Hnever Hup) as [D _];
      [exact Hc |] end.
  destruct clip; st_simpl; rewrite D; reflexivity.
Qed.

(** C4 (as amended): with [clip] set, exactly the pixels whose final depth
    equals the highest voxel centre of the region carry the +Z-facing colour
    [0xffff7f7f] (the packed gradient [(0, 0, 1)]), however their depth was
    reached, and every other pixel carries the normal computed by the
    recursion; without [clip] every pixel carries the normal computed by the
    recursion. The depth image does not depend on [clip]. *)
Theorem clip_marks_top_pixels r s :
  Pack.pack (Pack.mkGradient 0 0 1) = Some PLUS_Z /\
  depth (Render r true s) = depth (Render r false s) /\
  norm (Render r false s) =
    norm (recurse r (set_norm (fun _ _ => 0%Z)
                       (set_depth (fun _ _ => NegInf) s))) /\
  forall y x,
    norm (Render r true s) y x =
      if eqb (depth (Render r false s) y x) (top r) then PLUS_Z
      else norm (Render r false s) y x.
Proof.
  split; [vm_compute; reflexivity |].
  unfold Render. st_simpl. repeat split.
Qed.

(** *** What [run] stores *)



(** *** The images after a call of [pixels] *)

Lemma fold_left_ext_in (A B : Type) (f g : A -> B -> A) (l : list B) :
  (forall a b, In b l -> f a b = g a b) ->
  forall a, fold_left f l a = fold_left g l a.
Proof.
  induction l as [|b l IH]; intros H a; simpl; [reflexivity |].
  rewrite H by now left. apply IH. intros a' b' Hb. apply H. now right.
Qed.

Lemma run_norm s : norm (run s) = pending s.
Proof.
  unfold run, pending. st_simpl.
  generalize (evalCore s) as gs. intros gs.
  assert (H : forall l s1, xs s1 = xs s -> ys s1 = ys s ->
    norm (fold_left
            (fun s i =>
               emit (WriteNormal (ys s i) (xs s i) (colour (gs i)))
                    (set_norm (write (ys s i) (xs s i) (colour (gs i))
                                     (norm s)) s)) l s1)
    = fold_left (fun img i => write (ys s i) (xs s i) (colour (gs i)) img)
                l (norm s1)).
  { induction l as [|a l IH]; intros s1 Hx Hy; simpl; [reflexivity |].
    rewrite IH by (st_simpl; assumption). st_simpl. now rewrite Hx, Hy. }
  exact (H _ (emit (EvalGradients (norm_count s)) s) eq_refl eq_refl).
Qed.

Lemma pending_run s : pending (run s) = pending s.
Proof. transitivity (norm (run s)); [reflexivity | apply run_norm]. Qed.

Lemma pending_flushed s : norm_count s = 0 -> pending s = norm s.
Proof. unfold pending. intros ->. reflexivity. Qed.

Lemma pending_stage r i j k s :
  pending (stage r i j k s) =
    write (min (Y r) + j) (min (X r) + i)
          (colour (evalG (active s) (pos (X r) i) (pos (Y r) j) (pos (Z r) k)))
          (pending s).
Proof.
  unfold pending, stage, evalCore, Result.get, Result.set, store. st_simpl.
  rewrite seq_S, fold_left_app. cbn [fold_left Nat.add].
  rewrite Nat.eqb_refl. f_equal.
  apply fold_left_ext_in. intros img n Hn. apply in_seq in Hn.
  destruct (Nat.eqb_spec n (norm_count s)); [lia | reflexivity].
Qed.

Lemma first_hit_none v p d n :
  (forall k, k < n -> ltb d (p k) = false) -> first_hit v p d n = None.
Proof.
  induction n as [|n IH]; intros H; simpl; [reflexivity |].
  rewrite (H n) by lia. rewrite andb_false_r. apply IH. intros k Hk.
  apply H. lia.
Qed.

Lemma ltb_antitone d a b : (a <= b)%Z -> ltb d b = false -> ltb d a = false.
Proof.
  destruct d as [|z]; simpl; [discriminate |]. intros H E.
  apply Z.ltb_ge in E. apply Z.ltb_ge. lia.
Qed.

(** On an axis of non-negative pitch the loop breaks at the topmost filled
    voxel, or not at all. *)
Lemma first_hit_highest v p d n :
  (forall k k', k <= k' -> (p k <= p k')%Z) ->
  first_hit v p d n =
    match highest_voxel v n with
    | Some k => if ltb d (p k) then Some k else None
    | None => None
    end.
Proof.
  intros Hp. induction n as [|n IH]; simpl; [reflexivity |].
  destruct (v n <? 0)%Z; cbn [andb]; [|exact IH].
  destruct (ltb d (p n)) eqn:El; [reflexivity |].
  apply first_hit_none. intros k Hk.
  apply ltb_antitone with (b := p n); [apply Hp; lia | assumption].
Qed.

Lemma pending_set_index n s : pending (set_index n s) = pending s.
Proof. reflexivity. Qed.

(** One pixel column: the loop consumes the values of the column, writes
    the depth of the voxel it breaks at and stages the gradient of that
    iteration. *)
Lemma column_exact r out i j v base n : forall s,
  n <= size (Z r) ->
  (forall k, k < size (Z r) ->
     nth (base + k) out 0%Z = v (size (Z r) - k - 1)) ->
  index s = base + (size (Z r) - n) ->
  index (column r out i j n (size (Z r) - n) s) = base + size (Z r) /\
  active (column r out i j n (size (Z r) - n) s) = active s /\
  (forall y x,
    depth (column r out i j n (size (Z r) - n) s) y x =
      if Nat.eqb y (min (Y r) + j) && Nat.eqb x (min (X r) + i)
      then match first_hit v (pos (Z r))
                   (depth s (min (Y r) + j) (min (X r) + i)) n with
           | Some kk => Fin (pos (Z r) kk)
           | None => depth s y x
           end
      else depth s y x) /\
  (forall y x,
    pending (column r out i j n (size (Z r) - n) s) y x =
      if Nat.eqb y (min (Y r) + j) && Nat.eqb x (min (X r) + i)
      then match first_hit v (pos (Z r))
                   (depth s (min (Y r) + j) (min (X r) + i)) n with
           | Some kk =>
               colour (evalG (active s) (pos (X r) i) (pos (Y r) j)
                             (pos (Z r) (size (Z r) - kk - 1)))
           | None => pending s y x
           end
      else pending s y x).
Proof.
  induction n as [|n IH]; intros s Hn Hout Hidx.
  - cbn [column first_hit]. repeat split; [lia | |];
      intros y x; now destruct (_ && _).
  - cbn [column first_hit]. rewrite voxel_eq. unfold hit.
    assert (Ek : size (Z r) - (size (Z r) - S n) - 1 = n) by lia.
    rewrite Hidx, Hout, Ek by lia.
    destruct ((v n <? 0)%Z &&
              ltb (depth s (min (Y r) + j) (min (X r) + i)) (pos (Z r) n)).
    + destruct (stage_spec r i j (size (Z r) - S n) s)
        as (_ & D & _ & (A & _) & _ & Ix).
      pose proof (pending_stage r i j (size (Z r) - S n) s) as P.
      rewrite Ek in D.
      replace (size (Z r) - S n) with (size (Z r) - n - 1) in P at 2 by lia.
      set (st := stage r i j (size (Z r) - S n) s) in *.
      assert (E : forall s', depth s' = depth st -> index s' = index st ->
                  active s' = active st -> pending s' = pending st ->
        index s' = base + size (Z r) /\ active s' = active s /\
        (forall y x, depth s' y x =
           if Nat.eqb y (min (Y r) + j) && Nat.eqb x (min (X r) + i)
           then Fin (pos (Z r) n) else depth s y x) /\
        (forall y x, pending s' y x =
           if Nat.eqb y (min (Y r) + j) && Nat.eqb x (min (X r) + i)
           then colour (evalG (active s) (pos (X r) i) (pos (Y r) j)
                              (pos (Z r) (size (Z r) - n - 1)))
           else pending s y x)).
      { intros s' Ds Is As Ps. repeat split.
        - rewrite Is, Ix, Hidx. lia.
        - now rewrite As.
        - intros y x. rewrite Ds, D. reflexivity.
        - intros y x. rewrite Ps, P. reflexivity. }
      destruct (Nat.eqb (S (norm_count s)) NUM_POINTS).
      * destruct (run_frame st) as (D' & (A' & _) & _ & _ & _ & I').
        apply E; try assumption. apply pending_run.
      * apply E; reflexivity.
    + replace (S (size (Z r) - S n)) with (size (Z r) - n) by lia.
      destruct (IH (set_index (S (base + (size (Z r) - S n))) s))
        as (I1 & A1 & D1 & P1); try assumption; [lia | st_simpl; lia |].
      repeat split; [exact I1 | exact A1 | |].
      * intros y x. rewrite D1. reflexivity.
      * intros y x. rewrite P1, pending_set_index. reflexivity.
Qed.

Lemma rows_exact r act out i :
  i < size (X r) ->
  (forall i j k, i < size (X r) -> j < size (Y r) -> k < size (Z r) ->
     nth ((i * size (Y r) + j) * size (Z r) + k) out 0%Z
     = column_values act r i j (size (Z r) - k - 1)) ->
  forall n j0 s,
  j0 + n <= size (Y r) -> index s = (i * size (Y r) + j0) * size (Z r) ->
  let s' := fold_left (fun s j => column r out i j (size (Z r)) 0 s)
                      (seq j0 n) s in
  index s' = (i * size (Y r) + (j0 + n)) * size (Z r) /\
  active s' = active s /\
  (forall y x,
    depth s' y x =
      if Nat.eqb x (min (X r) + i) && (min (Y r) + j0 <=? y)
         && (y <? min (Y r) + j0 + n)
      then match first_hit (column_values act r i (y - min (Y r)))
                   (pos (Z r)) (depth s y x) (size (Z r)) with
           | Some kk => Fin (pos (Z r) kk)
           | None => depth s y x
           end
      else depth s y x) /\
  (forall y x,
    pending s' y x =
      if Nat.eqb x (min (X r) + i) && (min (Y r) + j0 <=? y)
         && (y <? min (Y r) + j0 + n)
      then match first_hit (column_values act r i (y - min (Y r)))
                   (pos (Z r)) (depth s y x) (size (Z r)) with
           | Some kk =>
               colour (evalG (active s) (pos (X r) i)
                             (pos (Y r) (y - min (Y r)))
                             (pos (Z r) (size (Z r) - kk - 1)))
           | None => pending s y x
           end
      else pending s y x).
Proof.
  intros Hi Hout. induction n as [|n IH]; intros j0 s Hj Hidx; cbv zeta.
  - cbn [seq fold_left]. repeat split; [rewrite Hidx; f_equal; lia | |];
      intros y x; bool_cases; try reflexivity; lia.
  - cbn [seq fold_left].
    pose proof (@column_exact r out i j0 (column_values act r i j0)
                  ((i * size (Y r) + j0) * size (Z r)) (size (Z r)) s
                  (Nat.le_refl _)) as Hc.
    rewrite Nat.sub_diag in Hc.
    destruct Hc as (I1 & A1 & D1 & P1);
      [intros k Hk; apply Hout; [assumption | lia | assumption] | lia |].
    destruct (IH (S j0) (column r out i j0 (size (Z r)) 0 s))
      as (I2 & A2 & D2 & P2); [lia | rewrite I1; simpl; lia |].
    cbv zeta in I2, A2, D2, P2.
    repeat split; [rewrite I2; f_equal; lia | now rewrite A2 | |].
    + intros y x. rewrite D2, !D1.
      bool_cases; try reflexivity; try lia.
      subst x. replace (y - min (Y r)) with j0 by lia.
      replace y with (min (Y r) + j0) by lia. reflexivity.
    + intros y x. rewrite P2, A1, !D1, P1.
      bool_cases; try reflexivity; try lia.
      subst x. replace (y - min (Y r)) with j0 by lia.
      replace y with (min (Y r) + j0) by lia. reflexivity.
Qed.

Lemma cols_exact r act out :
  (forall i j k, i < size (X r) -> j < size (Y r) -> k < size (Z r) ->
     nth ((i * size (Y r) + j) * size (Z r) + k) out 0%Z
     = column_values act r i j (size (Z r) - k - 1)) ->
  forall n i0 s,
  i0 + n <= size (X r) -> index s = i0 * size (Y r) * size (Z r) ->
  let s' := fold_left
              (fun s i =>
                 fold_left (fun s j => column r out i j (size (Z r)) 0 s)
                           (seq 0 (size (Y r))) s)
              (seq i0 n) s in
  index s' = (i0 + n) * size (Y r) * size (Z r) /\
  active s' = active s /\
  (forall y x,
    depth s' y x =
      if (min (X r) + i0 <=? x) && (x <? min (X r) + i0 + n)
         && (min (Y r) <=? y) && (y <? min (Y r) + size (Y r))
      then match first_hit
                   (column_values act r (x - min (X r)) (y - min (Y r)))
                   (pos (Z r)) (depth s y x) (size (Z r)) with
           | Some kk => Fin (pos (Z r) kk)
           | None => depth s y x
           end
      else depth s y x) /\
  (forall y x,
    pending s' y x =
      if (min (X r) + i0 <=? x) && (x <? min (X r) + i0 + n)
         && (min (Y r) <=? y) && (y <? min (Y r) + size (Y r))
      then match first_hit
                   (column_values act r (x - min (X r)) (y - min (Y r)))
                   (pos (Z r)) (depth s y x) (size (Z r)) with
           | Some kk =>
               colour (evalG (active s) (pos (X r) (x - min (X r)))
                             (pos (Y r) (y - min (Y r)))
                             (pos (Z r) (size (Z r) - kk - 1)))
           | None => pending s y x
           end
      else pending s y x).
Proof.
  intros Hout. induction n as [|n IH]; intros i0 s Hi Hidx; cbv zeta.
  - cbn [seq fold_left]. repeat split;
      [rewrite Hidx; f_equal; f_equal; lia | |];
      intros y x; bool_cases; try reflexivity; lia.
  - cbn [seq fold_left].
    destruct (@rows_exact r act out i0 ltac:(lia) Hout (size (Y r)) 0 s)
      as (I1 & A1 & D1 & P1); [lia | rewrite Hidx; f_equal; lia |].
    match goal with |- context [fold_left _ (seq (S i0) n) ?a] =>
      set (s1 := a) in * end.
    destruct (IH (S i0) s1) as (I2 & A2 & D2 & P2);
      [lia | rewrite I1; f_equal; simpl; lia |].
    cbv zeta in I2, A2, D2, P2.
    repeat split; [rewrite I2; f_equal; f_equal; lia | now rewrite A2 | |].
    + intros y x. rewrite D2, !D1. rewrite !Nat.add_0_r.
      bool_cases; try reflexivity; try lia.
      replace (x - min (X r)) with i0 by lia. reflexivity.
    + intros y x. rewrite P2, A1, !D1, P1. rewrite !Nat.add_0_r.
      bool_cases; try reflexivity; try lia.
      replace (x - min (X r)) with i0 by lia. reflexivity.
Qed.

(** The two images after [pixels], pixel by pixel: in the footprint of the
    region, a column in which the loop breaks gets the depth of that voxel
    and the colour of the gradient staged for it; every other pixel keeps
    both values. *)
Lemma pixels_exact r s y x :
  let h := first_hit
             (column_values (active s) r (x - min (X r)) (y - min (Y r)))
             (pos (Z r)) (depth s y x) (size (Z r)) in
  depth (pixels r s) y x =
    (if footprint r y x
     then match h with Some kk => Fin (pos (Z r) kk) | None => depth s y x end
     else depth s y x) /\
  norm (pixels r s) y x =
    (if footprint r y x
     then match h with
          | Some kk =>
              colour (evalG (active s) (pos (X r) (x - min (X r)))
                            (pos (Y r) (y - min (Y r)))
                            (pos (Z r) (size (Z r) - kk - 1)))
          | None => norm s y x
          end
     else norm s y x).
Proof.
  cbv zeta. unfold pixels.
  set (out := eval_region (active s) r).
  set (s1 := set_norm_count 0 (set_index 0 (emit (EvalVoxels r) s))).
  destruct (@cols_exact r (active s) out
              (fun i j k Hi Hj Hk => eval_region_nth (active s) r Hi Hj Hk)
              (size (X r)) 0 s1) as (_ & _ & D & P);
    [lia | reflexivity |].
  cbv zeta in D, P.
  match goal with |- context [fold_left ?f ?l s1] =>
    set (s2 := fold_left f l s1) in * end.
  assert (E : depth (if 0 <? norm_count s2 then run s2 else s2) = depth s2
              /\ norm (if 0 <? norm_count s2 then run s2 else s2)
                 = pending s2).
  { destruct (Nat.ltb_spec 0 (norm_count s2)).
    - split; [apply run_frame | apply run_norm].
    - split; [reflexivity | symmetry; apply pending_flushed; lia]. }
  destruct E as [E1 E2]. rewrite E1, E2, D, P.
  change (pending s1) with (norm s). change (depth s1) with (depth s).
  change (active s1) with (active s).
  unfold footprint, in_block. rewrite !Nat.add_0_r.
  split; bool_cases; try reflexivity; lia.
Qed.

(** X1: one call of [pixels] on a region whose Z axis runs upwards resolves
    every pixel column of the footprint against its topmost filled voxel,
    whatever the size of the gradient batches. Where that voxel, of index
    [k], lies above the depth recorded, the depth becomes its centre
    [r.Z.pos(k)] and the normal becomes the colour of the gradient taken at
    the height [r.Z.pos(r.Z.size - k - 1)]; every other pixel keeps its
    depth and its normal. *)
Theorem pixels_resolves_columns r s y x :
  (0 <= hstep (Z r))%Z ->
  let top_voxel :=
    highest_voxel (column_values (active s) r (x - min (X r)) (y - min (Y r)))
                  (size (Z r)) in
  depth (pixels r s) y x =
    (if footprint r y x then
       match top_voxel with
       | Some k => if ltb (depth s y x) (pos (Z r) k) then Fin (pos (Z r) k)
                   else depth s y x
       | None => depth s y x
       end
     else depth s y x) /\
  norm (pixels r s) y x =
    (if footprint r y x then
       match top_voxel with
       | Some k =>
           if ltb (depth s y x) (pos (Z r) k)
           then colour (evalG (active s) (pos (X r) (x - min (X r)))
                              (pos (Y r) (y - min (Y r)))
                              (pos (Z r) (size (Z r) - k - 1)))
           else norm s y x
       | None => norm s y x
       end
     else norm s y x).
Proof.
  intros Hz. cbv zeta.
  destruct (pixels_exact r s y x) as [D N]. cbv zeta in D, N.
  rewrite D, N.
  rewrite first_hit_highest by (intros; now apply pos_mono).
  destruct (footprint r y x); [|now split].
  destruct (highest_voxel _ _); [|now split].
  now destruct (ltb _ _).
Qed.

(** X2: when [pixels] returns, the read position [index] in the array of
    voxel values equals the number of voxels of the region: after a break
    the values of the rest of the column are skipped, no more and no
    less. *)
Theorem pixels_consumes_every_value r s : index (pixels r s) = voxels r.
Proof.
  unfold pixels.
  set (out := eval_region (active s) r).
  set (s1 := set_norm_count 0 (set_index 0 (emit (EvalVoxels r) s))).
  destruct (@cols_exact r (active s) out
              (fun i j k Hi Hj Hk => eval_region_nth (active s) r Hi Hj Hk)
              (size (X r)) 0 s1) as (Ix & _); [lia | reflexivity |].
  cbv zeta in Ix.
  match goal with |- context [fold_left ?f ?l s1] =>
    set (s2 := fold_left f l s1) in * end.
  destruct (0 <? norm_count s2);
    [destruct (run_frame s2) as (_ & _ & _ & _ & _ & ->) |];
    rewrite Ix; reflexivity.
Qed.

Lemma split_footprint r y x :
  footprint r y x = false ->
  footprint (fst (split r)) y x = false /\
  footprint (snd (split r)) y x = false.
Proof.
  unfold footprint, in_block.
  destruct (split_cut r)
    as [(E1 & E2 & E3 & E4 & h & C) | [(E1 & E2 & E3 & E4 & h & C)
                                      | (E1 & E2 & E3 & E4 & h & C)]];
    destruct (cut_spec C) as (_ & _ & S1 & S2 & M1 & M2 & _ & _ & Hh);
    rewrite ?E1, ?E2, ?E3, ?E4, ?S1, ?S2, ?M1, ?M2; intros H;
    split; revert H; bool_cases; intros Hf;
    try reflexivity; try discriminate; lia.
Qed.

Lemma fill_images r s y x :
  depth (fill r s) y x =
    (if footprint r y x then max (depth s y x) (top r) else depth s y x) /\
  norm (fill r s) = norm s.
Proof. split; reflexivity. Qed.

(** X3: a call of [recurse] on a region changes no pixel outside the
    footprint of that region, in either image. *)
Theorem recurse_stays_in_footprint r s :
  forall y x, footprint r y x = false ->
    depth (recurse r s) y x = depth s y x /\
    norm (recurse r s) y x = norm s y x.
Proof.
  apply recurse_elim with
    (P := fun r s s' => forall y x, footprint r y x = false ->
            depth s' y x = depth s y x /\ norm s' y x = norm s y x);
    clear r s.
  - intros r s _ y x _. destruct (entered_spec r s) as (_ & -> & -> & _).
    now split.
  - intros r s _ _ y x _. destruct (entered_spec r s) as (_ & -> & -> & _).
    now split.
  - intros r s _ _ _ y x Hf.
    destruct (pixels_exact r (entered r s) y x) as [D N]. cbv zeta in D, N.
    rewrite D, N, Hf. destruct (entered_spec r s) as (_ & -> & -> & _).
    now split.
  - intros r s _ _ _ _ y x Hf.
    destruct (fill_images r (evaluated r s) y x) as [-> ->]. rewrite Hf.
    destruct (evaluated_spec r s) as (_ & -> & -> & _). now split.
  - intros r s _ _ _ _ _ y x _.
    destruct (evaluated_spec r s) as (_ & -> & -> & _). now split.
  - intros r s s2 s3 _ _ _ _ _ _ IH2 IH3 y x Hf.
    destruct (split_footprint r y x Hf) as [F1 F2].
    destruct (IH2 y x F2) as [D2 N2]. destruct (IH3 y x F1) as [D3 N3].
    unfold pop. st_simpl. rewrite D3, N3, D2, N2. unfold push. st_simpl.
    destruct (evaluated_spec r s) as (_ & -> & -> & _). now split.
  - intros r s _ _ _ _ _ _ y x _. unfold push. st_simpl.
    destruct (evaluated_spec r s) as (_ & -> & -> & _). now split.
Qed.

(** *** Pixels that nothing was drawn on *)

Lemma blank_same s s' :
  depth s' = depth s -> norm s' = norm s -> blank s -> blank s'.
Proof. unfold blank. intros -> ->. exact (fun H => H). Qed.

Lemma pixels_blank r s : blank s -> blank (pixels r s).
Proof.
  intros H y x. destruct (pixels_exact r s y x) as [D N]. cbv zeta in D, N.
  rewrite D, N. destruct (footprint r y x); [|apply H].
  destruct (first_hit _ _ _ _); [discriminate | apply H].
Qed.

Lemma recurse_blank r s : blank s -> blank (recurse r s).
Proof.
  apply recurse_elim with (P := fun r s s' => blank s -> blank s');
    clear r s.
  - intros r s _. apply blank_same; apply entered_spec.
  - intros r s _ _. apply blank_same; apply entered_spec.
  - intros r s _ _ _ H. apply pixels_blank. revert H.
    apply blank_same; apply entered_spec.
  - intros r s _ _ _ _ H y x.
    destruct (fill_images r (evaluated r s) y x) as [-> ->].
    destruct (evaluated_spec r s) as (_ & -> & -> & _).
    destruct (footprint r y x); [|apply H].
    destruct (depth s y x); discriminate.
  - intros r s _ _ _ _ _. apply blank_same; apply evaluated_spec.
  - intros r s s2 s3 _ _ _ _ _ _ IH2 IH3 H.
    assert (H3 : blank s3).
    { apply IH3, IH2. revert H. apply blank_same; apply evaluated_spec. }
    exact H3.
  - intros r s _ _ _ _ _ _. apply blank_same; apply evaluated_spec.
Qed.

(** X4: in the images returned by [Render], cancelled or not, clipped or
    not, a pixel whose depth is still minus infinity has the empty normal:
    a normal is only ever stored for a pixel whose depth has been
    written. *)
Theorem unseen_pixels_have_no_normal r clip s y x :
  depth (Render r clip s) y x = NegInf -> norm (Render r clip s) y x = 0%Z.
Proof.
  unfold Render.
  set (s0 := set_norm (fun _ _ => 0%Z) (set_depth (fun _ _ => NegInf) s)).
  assert (H : blank (recurse r s0)) by (apply recurse_blank; now intros ? ?).
  destruct clip; st_simpl; intros E; [rewrite E; cbn [eqb] |]; now apply H.
Qed.

(** X5: a region without voxels is left alone: [recurse] changes no pixel
    of either image. *)
Theorem empty_region_changes_nothing r s :
  voxels r = 0 ->
  forall y x, depth (recurse r s) y x = depth s y x /\
              norm (recurse r s) y x = norm s y x.
Proof.
  apply recurse_elim with
    (P := fun r s s' => voxels r = 0 -> forall y x,
            depth s' y x = depth s y x /\ norm s' y x = norm s y x);
    clear r s; try (intros; lia).
  - intros r s _ _ y x. destruct (entered_spec r s) as (_ & -> & -> & _).
    now split.
  - intros r s _ _ _ y x. destruct (entered_spec r s) as (_ & -> & -> & _).
    now split.
  - intros r s _ _ _ Hv y x.
    destruct (pixels_exact r (entered r s) y x) as [D N]. cbv zeta in D, N.
    rewrite D, N. destruct (entered_spec r s) as (_ & -> & -> & _).
    destruct (footprint r y x) eqn:Hf; [|now split].
    assert (Hz : size (Z r) = 0).
    { unfold footprint, in_block in Hf. unfold voxels in Hv.
      apply andb_true_iff in Hf as [Hf Hx].
      apply andb_true_iff in Hf as [Hf Hx'].
      apply andb_true_iff in Hf as [Hy' Hy].
      apply Nat.ltb_lt in Hx, Hy. apply Nat.leb_le in Hx', Hy'.
      destruct (size (Z r)); [reflexivity |].
      assert (0 < size (X r) * size (Y r)) by (apply Nat.mul_pos_pos; lia).
      rewrite Nat.mul_succ_r in Hv. lia. }
    rewrite Hz. now split.
Qed.

(** *** A render that is cut short *)

Lemma dle_join_l a b : le a (join a b).
Proof. destruct a, b; simpl; try exact I; lia. Qed.

Lemma dle_join_r a b : le b (join a b).
Proof. destruct a, b; simpl; try exact I; lia. Qed.

Lemma recurse_partial r s :
  sound -> neutral -> 0 < count_double ->
  upright r -> (forall b, In b (active s) -> covers b r) ->
  (exists t : Image Depth,
     (forall y x, depth (recurse r s) y x = join (depth s y x) (t y x)) /\
     (forall y x, le (t y x) (target [] r y x))) /\
  active (recurse r s) = active s.
Proof.
  intros Hsound Hneutral HW.
  apply recurse_elim with
    (P := fun r s s' =>
            upright r -> (forall b, In b (active s) -> covers b r) ->
            (exists t : Image Depth,
               (forall y x, depth s' y x = join (depth s y x) (t y x)) /\
               (forall y x, le (t y x) (target [] r y x))) /\
            active s' = active s); clear r s.
  - intros r s _ _ _. destruct (entered_spec r s) as (_ & D & _ & A & _).
    split; [|exact A]. exists (fun _ _ => NegInf).
    split; intros y x; [now rewrite D, join_NegInf_r | exact I].
  - intros r s _ _ _ _. destruct (entered_spec r s) as (_ & D & _ & A & _).
    split; [|exact A]. exists (fun _ _ => NegInf).
    split; intros y x; [now rewrite D, join_NegInf_r | exact I].
  - intros r s _ _ _ Hup Hc.
    destruct (entered_spec r s) as (_ & D & _ & A & _).
    destruct (pixels_frame r (entered r s)) as (_ & A' & _).
    split; [|congruence]. exists (target [] r).
    split; intros y x; [|apply dle_refl].
    rewrite pixels_depth by apply Hup. rewrite D, A.
    f_equal. now apply target_neutral.
  - intros r s _ _ Hv Hu Hup Hc.
    destruct (evaluated_spec r s) as (_ & D & _ & A & _).
    split; [|exact A]. exists (target [] r).
    split; intros y x; [|apply dle_refl].
    destruct (fill_images r (evaluated r s) y x) as [-> _]. rewrite D.
    destruct (footprint r y x) eqn:Hin.
    + rewrite max_join. f_equal. symmetry.
      apply target_full; try assumption.
      * apply voxels_pos_size. lia.
      * intros i j k Hi Hj Hk. unfold column_values, bound in *.
        pose proof (covers_box Hup) as Hb.
        destruct (Hsound (active s) (box r) _ _ _ (Hb i j k Hi Hj Hk))
          as [_ H2]; [|lia].
        intros b' Hb'. now apply (Hc b' Hb').
    + rewrite target_outside by assumption. now rewrite join_NegInf_r.
  - intros r s _ _ _ _ _ _ _.
    destruct (evaluated_spec r s) as (_ & D & _ & A & _).
    split; [|exact A]. exists (fun _ _ => NegInf).
    split; intros y x; [now rewrite D, join_NegInf_r | exact I].
  - intros r s s2 s3 _ _ _ _ _ _ IH2 IH3 Hup Hc.
    destruct (evaluated_spec r s) as (_ & D & _ & A & L & _).
    destruct (split_upright Hup) as [U1 U2].
    assert (Hc' : forall b, In b (active (push (evaluated r s))) ->
                    covers b r).
    { unfold push. st_simpl. rewrite L, A. intros b [<- | Hb];
        [now apply covers_box | now apply Hc]. }
    destruct (IH2 U2) as [(t2 & D2 & B2) A2];
      [intros b Hb; now apply split_covers, Hc' |].
    destruct (IH3 U1) as [(t3 & D3 & B3) A3];
      [rewrite A2; intros b Hb; now apply split_covers, Hc' |].
    split.
    + exists (fun y x => join (t2 y x) (t3 y x)). split; intros y x.
      * unfold pop. st_simpl. rewrite D3, D2.
        unfold push. st_simpl. rewrite D, <- join_assoc. reflexivity.
      * rewrite target_split. apply join_le.
        -- eapply dle_trans; [apply B2 | apply dle_join_l].
        -- eapply dle_trans; [apply B3 | apply dle_join_r].
    + unfold pop. st_simpl. rewrite A3, A2. unfold push. st_simpl. exact A.
  - intros r s _ _ Hv _ _ Hcs. rewrite (interior_canSplit r HW Hv) in Hcs.
    discriminate.
Qed.

(** X6: whenever and however often the cancellation flag is set, the depth
    image returned by [Render] lies, pixel for pixel, at or below the depth
    image of the exhaustive per-voxel evaluation, for an evaluator that
    keeps its contract, a batch width of at least one voxel and a region
    whose axes run upwards: a render that was cut short shows no surface
    that is not there. *)
Theorem partial_depth_is_below_exhaustive :
  sound -> neutral -> 0 < count_double ->
  forall r clip s,
    upright r -> (forall b, In b (active s) -> covers b r) ->
    forall y x, le (depth (Render r clip s) y x) (exhaustive_depth r y x).
Proof.
  intros Hsound Hneutral HW r clip s Hup Hc y x.
  unfold Render, exhaustive_depth.
  match goal with |- context [recurse r ?a] =>
    destruct (@recurse_partial r a Hsound Hneutral HW Hup)
      as [(t & D & B) _]; [exact Hc |] end.
  destruct clip; st_simpl; rewrite D; apply B.
Qed.

(** *** The batches handed to the evaluator *)

Lemma run_leaf r s :
  0 < norm_count s <= NUM_POINTS -> emits (leaf_event r) s (run s).
Proof.
  intros Hn. unfold run.
  eapply emits_trans with (s2 := emit (EvalGradients (norm_count s)) s).
  - apply emits_emit. exact Hn.
  - generalize (emit (EvalGradients (norm_count s)) s) as s1.
    generalize (seq 0 (norm_count s)) as l. generalize (evalCore s) as gs.
    intros gs l s1. apply emits_trans with
      (s2 := fold_left (fun s i =>
         emit (WriteNormal (ys s i) (xs s i) (colour (gs i)))
              (set_norm (write (ys s i) (xs s i) (colour (gs i)) (norm s)) s))
         l s1).
    + apply (@emits_fold (leaf_event r) nat _ (fun _ => True)); [|exact I].
      intros s2 a _. split; [exact I |].
      eapply emits_step; [reflexivity | exact I].
    + apply emits_same. reflexivity.
Qed.

Lemma voxel_leaf r' r out i j k s :
  norm_count s < NUM_POINTS ->
  norm_count (fst (voxel r out i j k s)) < NUM_POINTS /\
  emits (leaf_event r') s (fst (voxel r out i j k s)).
Proof.
  intros Hlt. rewrite voxel_eq.
  destruct (hit r out i j k s); cbn [fst];
    [|split; [assumption | now apply emits_same]].
  destruct (stage_spec r i j k s) as (T & _ & _ & _ & C & _).
  assert (E : emits (leaf_event r') s (stage r i j k s)).
  { eexists. split; [exact T |]. repeat constructor. assumption. }
  destruct (Nat.eqb (S (norm_count s)) NUM_POINTS) eqn:En.
  - split; [rewrite run_norm_count; lia |].
    apply Nat.eqb_eq in En.
    eapply emits_trans; [exact E | apply run_leaf; lia].
  - apply Nat.eqb_neq in En. split; [lia | exact E].
Qed.

Lemma column_leaf r' r out i j n : forall k s,
  norm_count s < NUM_POINTS ->
  norm_count (column r out i j n k s) < NUM_POINTS /\
  emits (leaf_event r') s (column r out i j n k s).
Proof.
  induction n as [|n IH]; intros k s Hlt; simpl.
  - split; [assumption | apply emits_refl].
  - pose proof (voxel_leaf r' r out i j k s Hlt) as [H1 H2].
    destruct (voxel r out i j k s) as [s' broke]. cbn [fst] in *.
    destruct broke; [split; assumption |].
    destruct (IH (S k) s' H1) as [H3 H4].
    split; [assumption | eapply emits_trans; eauto].
Qed.

Lemma pixels_leaf r s :
  0 < NUM_POINTS -> emits (leaf_event r) s (pixels r s).
Proof.
  intros Hpos. unfold pixels.
  set (out := eval_region (active s) r).
  set (s1 := set_norm_count 0 (set_index 0 (emit (EvalVoxels r) s))).
  assert (E1 : emits (leaf_event r) s s1)
    by (eapply emits_step; reflexivity).
  assert (N1 : norm_count s1 < NUM_POINTS) by exact Hpos.
  clearbody s1.
  match goal with |- context [fold_left ?f ?l s1] =>
    assert (H : norm_count (fold_left f l s1) < NUM_POINTS /\
                emits (leaf_event r) s1 (fold_left f l s1)) end.
  { apply (@emits_fold (leaf_event r) nat _
             (fun s => norm_count s < NUM_POINTS)); [|assumption].
    intros s2 i H2.
    apply (@emits_fold (leaf_event r) nat _
             (fun s => norm_count s < NUM_POINTS)); [|assumption].
    intros s3 j H3. now apply column_leaf. }
  destruct H as [N2 H].
  match goal with |- context [fold_left ?f ?l s1] =>
    set (s2 := fold_left f l s1) in * end.
  destruct (Nat.ltb_spec 0 (norm_count s2)).
  - eapply emits_trans; [exact E1 |].
    eapply emits_trans; [exact H | apply run_leaf; lia].
  - eapply emits_trans; eauto.
Qed.

(** X7: during a render with positive batch widths the evaluator is only
    used within them. [Tree::eval(Region)] is called for regions of at most
    [count_double] voxels, the interval evaluation for larger ones, every
    gradient batch holds between one and [NUM_POINTS] points staged at
    indices below [NUM_POINTS], and the assertion [r.canSplit()] never
    fails. *)
Theorem evaluator_stays_within_batches :
  0 < count_double -> 0 < NUM_POINTS ->
  forall r clip s, emits within_batches s (Render r clip s).
Proof.
  intros HW HN r clip s.
  assert (Hent : forall r s, emits within_batches s (entered r s)).
  { intros r0 s0. exists [Enter r0; Load (abort (loads s0))]. split.
    - unfold entered, load. st_simpl. now rewrite <- app_assoc.
    - repeat constructor. }
  assert (Hev : forall r s, count_double < voxels r ->
                  emits within_batches s (evaluated r s)).
  { intros r0 s0 Hv. eapply emits_trans; [apply Hent |].
    eapply emits_step; [reflexivity | exact Hv]. }
  assert (H : forall r s, emits within_batches s (recurse r s)).
  { apply recurse_elim with (P := fun _ s s' => emits within_batches s s').
    - intros; apply Hent.
    - intros; apply Hent.
    - intros r0 s0 _ _ Hv. eapply emits_trans; [apply Hent |].
      apply emits_weaken with (Q := leaf_event r0); [|now apply pixels_leaf].
      intros [] He; cbn in *; try exact I; try assumption; try contradiction.
      now subst.
    - intros r0 s0 _ _ Hv _.
      apply emits_trans with (s2 := evaluated r0 s0); [now apply Hev |].
      eapply emits_step; [reflexivity | exact I].
    - intros; now apply Hev.
    - intros r0 s0 s2 s3 _ _ Hv _ _ _ H2 H3.
      apply emits_trans with (s2 := evaluated r0 s0); [now apply Hev |].
      apply emits_trans with (s2 := push (evaluated r0 s0));
        [eapply emits_step; [reflexivity | exact I] |].
      eapply emits_trans; [exact H2 |]. eapply emits_trans; [exact H3 |].
      eapply emits_step; [reflexivity | exact I].
    - intros r0 s0 _ _ Hv _ _ Hcs.
      rewrite (interior_canSplit r0 HW Hv) in Hcs. discriminate. }
  unfold Render.
  set (s0 := set_norm (fun _ _ => 0%Z) (set_depth (fun _ _ => NegInf) s)).
  destruct (H r s0) as (evs & T & F). exists evs.
  split; [|exact F]. destruct clip; exact T.
Qed.

(** *** The calls of [recurse] *)

Ltac count_events :=
  unfold calls, reads in *;
  cbn [filter is_enter is_load length app Nat.add] in *.

Lemma calls_app a b : calls (a ++ b) = calls a + calls b.
Proof. unfold calls. now rewrite filter_app, length_app. Qed.

Lemma reads_app a b : reads (a ++ b) = reads a + reads b.
Proof. unfold reads. now rewrite filter_app, length_app. Qed.

Lemma pixel_kind_counts evs :
  Forall pixel_kind evs -> calls evs = 0 /\ reads evs = 0.
Proof.
  induction 1 as [|e evs He _ [IH1 IH2]]; [now split |].
  change (e :: evs) with ([e] ++ evs). rewrite calls_app, reads_app, IH1, IH2.
  destruct e; try contradiction; now split.
Qed.

Lemma split_voxels_sum r :
  voxels (fst (split r)) + voxels (snd (split r)) = voxels r.
Proof.
  unfold voxels.
  destruct (split_cut r)
    as [(E1 & E2 & E3 & E4 & h & C) | [(E1 & E2 & E3 & E4 & h & C)
                                      | (E1 & E2 & E3 & E4 & h & C)]];
    destruct (cut_spec C) as (_ & _ & S1 & S2 & _ & _ & _ & _ & Hh);
    rewrite E1, E2, E3, E4, S1, S2.
  - rewrite <- Nat.mul_add_distr_l. f_equal. lia.
  - rewrite <- Nat.mul_add_distr_r, <- Nat.mul_add_distr_l.
    f_equal. f_equal. lia.
  - rewrite <- !Nat.mul_add_distr_r. f_equal. f_equal. lia.
Qed.

Lemma recurse_calls r s :
  exists evs,
    trace (recurse r s) = trace s ++ evs /\
    reads evs = calls evs /\ loads (recurse r s) = loads s + calls evs /\
    1 <= calls evs /\
    (0 < count_double -> calls evs <= Nat.max 1 (2 * voxels r - 1)).
Proof.
  apply recurse_elim with
    (P := fun r s s' => exists evs,
            trace s' = trace s ++ evs /\
            reads evs = calls evs /\ loads s' = loads s + calls evs /\
            1 <= calls evs /\
            (0 < count_double -> calls evs <= Nat.max 1 (2 * voxels r - 1)));
    clear r s.
  - intros r s _. destruct (entered_spec r s) as (T & _ & _ & _ & L).
    eexists. split; [exact T |]. rewrite L. count_events. repeat split; lia.
  - intros r s _ _. destruct (entered_spec r s) as (T & _ & _ & _ & L).
    eexists. split; [exact T |]. rewrite L. count_events. repeat split; lia.
  - intros r s _ _ _. destruct (entered_spec r s) as (T & _ & _ & _ & L).
    destruct (pixels_kind r (entered r s)) as (evs & T' & K).
    destruct (pixels_frame r (entered r s)) as (_ & _ & _ & L').
    destruct (pixel_kind_counts K) as [C R].
    exists ([Enter r; Load (abort (loads s))] ++ evs).
    rewrite T', T, <- app_assoc, calls_app, reads_app, C, R, L', L.
    count_events. repeat split; lia.
  - intros r s _ _ _ _.
    destruct (evaluated_spec r s) as (T & _ & _ & _ & _ & L).
    exists [Enter r; Load (abort (loads s)); EvalInterval r; Fill r].
    unfold fill. st_simpl. rewrite T, L, <- app_assoc.
    count_events. repeat split; lia.
  - intros r s _ _ _ _ _.
    destruct (evaluated_spec r s) as (T & _ & _ & _ & _ & L).
    eexists. split; [exact T |]. rewrite L. count_events. repeat split; lia.
  - intros r s s2 s3 _ _ Hv _ _ Hcs
      (e2 & T2 & R2 & L2 & P2 & B2) (e3 & T3 & R3 & L3 & P3 & B3).
    destruct (evaluated_spec r s) as (T & _ & _ & _ & _ & L).
    exists ([Enter r; Load (abort (loads s)); EvalInterval r; Push]
            ++ e2 ++ e3 ++ [Pop]).
    unfold pop. st_simpl. rewrite T3, T2, L3, L2. unfold push. st_simpl.
    rewrite T, L, !calls_app, !reads_app, R2, R3.
    split; [now rewrite <- !app_assoc |].
    count_events. repeat split; try lia.
    intros HW. specialize (B2 HW). specialize (B3 HW).
    pose proof (split_voxels_sum r) as Hs.
    destruct (split_voxels r Hcs) as [H1 H2]; lia.
  - intros r s _ _ _ _ _ _.
    destruct (evaluated_spec r s) as (T & _ & _ & _ & _ & L).
    exists [Enter r; Load (abort (loads s)); EvalInterval r; Push;
            AssertFailed].
    unfold push. st_simpl. rewrite T, L, <- !app_assoc.
    count_events. repeat split; lia.
Qed.

(** X8: the cancellation flag is read exactly once in every call of
    [recurse], and nowhere else: over a whole render the number of reads
    recorded and the advance of the read counter both equal the number of
    calls, which is at least one. *)
Theorem flag_is_read_once_per_call r clip s :
  exists evs,
    trace (Render r clip s) = trace s ++ evs /\
    reads evs = calls evs /\
    loads (Render r clip s) = loads s + calls evs /\ 1 <= calls evs.
Proof.
  unfold Render.
  set (s0 := set_norm (fun _ _ => 0%Z) (set_depth (fun _ _ => NegInf) s)).
  destruct (recurse_calls r s0) as (evs & T & R & L & P & _).
  exists evs. destruct clip; repeat split; assumption.
Qed.

(** X9: with a batch width of at least one voxel, a render of a region
    makes at most [2 * voxels - 1] calls of [recurse] (one call for a
    region without voxels): every subdivision hands each half at least one
    voxel and the two halves share the voxels of the region. *)
Theorem render_makes_few_calls :
  0 < count_double ->
  forall r clip s, exists evs,
    trace (Render r clip s) = trace s ++ evs /\
    calls evs <= Nat.max 1 (2 * voxels r - 1).
Proof.
  intros HW r clip s. unfold Render.
  set (s0 := set_norm (fun _ _ => 0%Z) (set_depth (fun _ _ => NegInf) s)).
  destruct (recurse_calls r s0) as (evs & T & _ & _ & _ & B).
  exists evs. destruct clip; split; auto.
Qed.

(** *** Regions that are skipped, and the highest depth *)

(** X10: the early return of [recurse] for an occluded region loses
    nothing. When every pixel of the footprint already lies at or above the
    highest voxel centre of a region whose Z axis runs upwards, evaluating
    the region voxel by voxel with [pixels] would change no pixel of either
    image. *)
Theorem occluded_region_has_nothing_to_add r s :
  (0 <= hstep (Z r))%Z -> occluded r s = true ->
  forall y x, depth (pixels r s) y x = depth s y x /\
              norm (pixels r s) y x = norm s y x.
Proof.
  intros Hz Ho y x.
  destruct (pixels_exact r s y x) as [D N]. cbv zeta in D, N.
  rewrite D, N. destruct (footprint r y x) eqn:Hf; [|now split].
  rewrite first_hit_none; [now split |].
  intros k Hk. apply ltb_antitone with (b := top r).
  - apply pos_mono; [assumption | lia].
  - pose proof (block_all_ge_true _ _ _ _ _ _ Ho y x Hf) as Hg.
    destruct (depth s y x) as [|c]; [discriminate |].
    cbn [geb ltb] in *. apply Z.leb_le in Hg. apply Z.ltb_ge. exact Hg.
Qed.

Lemma split_top r :
  upright r ->
  (top (fst (split r)) <= top r)%Z /\ (top (snd (split r)) <= top r)%Z.
Proof.
  intros (_ & _ & Hz). unfold top, split.
  destruct (_ && _) eqn:E; [|destruct (size (X r) <? size (Y r))];
    cbn [fst snd X Y Z split_range size]; try (split; apply Z.le_refl).
  apply andb_true_iff in E as [E _]. apply Nat.ltb_lt in E.
  assert (Hh : size (Z r) / 2 <= size (Z r))
    by (apply Nat.Div0.div_le_upper_bound; lia).
  assert (Hh' : size (Z r) - size (Z r) / 2 <> 0).
  { assert (size (Z r) / 2 < size (Z r)) by (apply Nat.div_lt; lia). lia. }
  unfold pos. cbn [origin hstep]. split.
  - apply Z.add_le_mono_l, Z.mul_le_mono_nonneg_l; [assumption | lia].
  - rewrite <- Z.add_assoc. apply Z.add_le_mono_l.
    replace (2 * hstep (Z r) * Z.of_nat (size (Z r) / 2) +
             hstep (Z r) *
               (2 * Z.of_nat (size (Z r) - size (Z r) / 2 - 1) + 1))%Z
      with (hstep (Z r) *
              (2 * Z.of_nat (size (Z r) / 2) +
               (2 * Z.of_nat (size (Z r) - size (Z r) / 2 - 1) + 1)))%Z
      by ring.
    apply Z.mul_le_mono_nonneg_l; [assumption | lia].
Qed.

Lemma recurse_below r s :
  upright r ->
  forall zb, (top r <= zb)%Z ->
    (forall y x, le (depth s y x) (Fin zb)) ->
    forall y x, le (depth (recurse r s) y x) (Fin zb).
Proof.
  apply recurse_elim with
    (P := fun r s s' =>
            upright r -> forall zb, (top r <= zb)%Z ->
            (forall y x, le (depth s y x) (Fin zb)) ->
            forall y x, le (depth s' y x) (Fin zb)); clear r s.
  - intros r s _ _ zb _ H y x.
    destruct (entered_spec r s) as (_ & -> & _). apply H.
  - intros r s _ _ _ zb _ H y x.
    destruct (entered_spec r s) as (_ & -> & _). apply H.
  - intros r s _ _ _ Hup zb Hz H y x.
    rewrite pixels_depth by apply Hup.
    destruct (entered_spec r s) as (_ & -> & _).
    apply join_le; [apply H |].
    eapply dle_trans; [now apply target_bound | exact Hz].
  - intros r s _ _ _ _ _ zb Hz H y x.
    destruct (fill_images r (evaluated r s) y x) as [-> _].
    destruct (evaluated_spec r s) as (_ & -> & _).
    destruct (footprint r y x); [|apply H].
    rewrite max_join. apply join_le; [apply H | exact Hz].
  - intros r s _ _ _ _ _ _ zb _ H y x.
    destruct (evaluated_spec r s) as (_ & -> & _). apply H.
  - intros r s s2 s3 _ _ _ _ _ _ IH2 IH3 Hup zb Hz H y x.
    destruct (split_upright Hup) as [U1 U2].
    destruct (split_top Hup) as [T1 T2].
    unfold pop. st_simpl.
    apply (IH3 U1 zb); [lia |]. apply (IH2 U2 zb); [lia |].
    intros y' x'. unfold push. st_simpl.
    destruct (evaluated_spec r s) as (_ & -> & _). apply H.
  - intros r s _ _ _ _ _ _ _ zb _ H y x. unfold push. st_simpl.
    destruct (evaluated_spec r s) as (_ & -> & _). apply H.
Qed.

(** X11: no pixel of the depth image returned by [Render] lies above the
    highest voxel centre of the region rendered, when the axes of the region
    run upwards; this holds for any evaluator and any cancellation. *)
Theorem depth_never_exceeds_the_top r clip s :
  upright r ->
  forall y x, le (depth (Render r clip s) y x) (Fin (top r)).
Proof.
  intros Hup y x. unfold Render.
  set (s0 := set_norm (fun _ _ => 0%Z) (set_depth (fun _ _ => NegInf) s)).
  assert (H : le (depth (recurse r s0) y x) (Fin (top r))).
  { apply recurse_below; [assumption | apply Z.le_refl |]. now intros ? ?. }
  destruct clip; exact H.
Qed.

(** *** The values of the depth image *)

Lemma first_hit_lt v p d n k : first_hit v p d n = Some k -> k < n.
Proof.
  induction n as [|n IH]; simpl; [discriminate |].
  destruct (_ && _); [intros [= <-]; lia | intros H; specialize (IH H); lia].
Qed.

Lemma split_centres r (Q : BinNums.Z -> Prop) :
  (forall k, k < size (Z r) -> Q (pos (Z r) k)) ->
  (forall k, k < size (Z (fst (split r))) -> Q (pos (Z (fst (split r))) k)) /\
  (forall k, k < size (Z (snd (split r))) -> Q (pos (Z (snd (split r))) k)).
Proof.
  intros H.
  destruct (split_cut r)
    as [(E1 & E2 & E3 & E4 & h & C) | [(E1 & E2 & E3 & E4 & h & C)
                                      | (E1 & E2 & E3 & E4 & h & C)]];
    try (rewrite E3, E4; split; exact H).
  destruct (cut_spec C) as (P1 & P2 & S1 & S2 & _ & _ & _ & _ & Hh).
  rewrite S1, S2. split; intros k Hk; rewrite ?P1, ?P2; apply H; lia.
Qed.

Lemma recurse_centres r s (Q : BinNums.Z -> Prop) :
  (forall k, k < size (Z r) -> Q (pos (Z r) k)) ->
  (forall y x z, depth s y x = Fin z -> Q z) ->
  forall y x z, depth (recurse r s) y x = Fin z -> Q z.
Proof.
  revert Q.
  apply recurse_elim with
    (P := fun r s s' => forall Q : BinNums.Z -> Prop,
            (forall k, k < size (Z r) -> Q (pos (Z r) k)) ->
            (forall y x z, depth s y x = Fin z -> Q z) ->
            forall y x z, depth s' y x = Fin z -> Q z); clear r s.
  - intros r s _ Q _ H y x z.
    destruct (entered_spec r s) as (_ & -> & _). apply H.
  - intros r s _ _ Q _ H y x z.
    destruct (entered_spec r s) as (_ & -> & _). apply H.
  - intros r s _ _ _ Q Hq H y x z.
    destruct (pixels_exact r (entered r s) y x) as [D _]. cbv zeta in D.
    rewrite D. destruct (entered_spec r s) as (_ & -> & _ & -> & _).
    destruct (footprint r y x); [|apply H].
    destruct (first_hit _ _ _ _) as [k|] eqn:Eh; [|apply H].
    intros [= <-]. apply Hq. now apply first_hit_lt in Eh.
  - intros r s _ _ Hv _ Q Hq H y x z.
    destruct (fill_images r (evaluated r s) y x) as [-> _].
    destruct (evaluated_spec r s) as (_ & -> & _).
    destruct (footprint r y x); [|apply H].
    assert (Ht : Q (top r)).
    { apply Hq. assert (0 < size (Z r)) by (apply voxels_pos_size; lia). lia. }
    destruct (depth s y x) as [|c] eqn:Ed; cbn [max]; intros [= <-];
      [exact Ht |].
    destruct (Z.max_spec c (top r)) as [[_ ->] | [_ ->]];
      [exact Ht | now apply (H y x)].
  - intros r s _ _ _ _ _ Q _ H y x z.
    destruct (evaluated_spec r s) as (_ & -> & _). apply H.
  - intros r s s2 s3 _ _ _ _ _ _ IH2 IH3 Q Hq H y x z.
    destruct (split_centres r Q Hq) as [Q1 Q2].
    unfold pop. st_simpl. apply (IH3 Q Q1). apply (IH2 Q Q2).
    intros y' x' z'. unfold push. st_simpl.
    destruct (evaluated_spec r s) as (_ & -> & _). apply H.
  - intros r s _ _ _ _ _ _ Q _ H y x z. unfold push. st_simpl.
    destruct (evaluated_spec r s) as (_ & -> & _). apply H.
Qed.

(** X14: every finite value of the depth image returned by [Render] is the
    centre [r.Z.pos(k)] of a voxel layer [k < r.Z.size] of the region
    rendered, for any evaluator and any cancellation: no other depth is
    ever stored. *)
Theorem depths_are_voxel_centres r clip s y x z :
  depth (Render r clip s) y x = Fin z ->
  exists k, k < size (Z r) /\ z = pos (Z r) k.
Proof.
  unfold Render.
  set (s0 := set_norm (fun _ _ => 0%Z) (set_depth (fun _ _ => NegInf) s)).
  intros H.
  apply (@recurse_centres r s0
           (fun z => exists k, k < size (Z r) /\ z = pos (Z r) k)) with y x.
  - intros k Hk. now exists k.
  - intros y' x' z'. discriminate.
  - destruct clip; exact H.
Qed.

(** *** States that show the same images *)

Lemma recurse_body_cases rec r s :
  recurse_body rec r s =
    if abort (loads s) then entered r s
    else if occluded r (entered r s) then entered r s
    else if voxels r <=? count_double then pixels r (entered r s)
    else if (upper (bound r s) <? 0)%Z then fill r (evaluated r s)
    else if (lower (bound r s) <=? 0)%Z then
      if canSplit r then
        pop (rec (fst (split r)) (rec (snd (split r)) (push (evaluated r s))))
      else emit AssertFailed (push (evaluated r s))
    else evaluated r s.
Proof. reflexivity. Qed.

Lemma forallb_pointwise (A : Type) (f g : A -> bool) (l : list A) :
  (forall a, f a = g a) -> forallb f l = forallb g l.
Proof.
  intros H. induction l as [|a l IH]; [reflexivity |]. cbn [forallb].
  now rewrite H, IH.
Qed.

Lemma same_view_entered r s1 s2 :
  same_view s1 s2 -> same_view (entered r s1) (entered r s2).
Proof.
  intros (D & N & A & L & Lo). repeat split; try assumption.
  change (S (loads s1) = S (loads s2)). now rewrite Lo.
Qed.

Lemma same_view_evaluated r s1 s2 :
  same_view s1 s2 -> same_view (evaluated r s1) (evaluated r s2).
Proof.
  intros (D & N & A & L & Lo). repeat split; try assumption.
  change (S (loads s1) = S (loads s2)). now rewrite Lo.
Qed.

Lemma same_view_occluded r s1 s2 :
  same_view s1 s2 -> occluded r s1 = occluded r s2.
Proof.
  intros (D & _). unfold occluded, block_all_ge.
  apply forallb_pointwise. intros j.
  apply forallb_pointwise. intros i. now rewrite D.
Qed.

Lemma same_view_fill r s1 s2 :
  same_view s1 s2 -> same_view (fill r s1) (fill r s2).
Proof.
  intros (D & N & A & L & Lo). repeat split; try assumption.
  intros y x. destruct (fill_images r s1 y x) as [-> _].
  destruct (fill_images r s2 y x) as [-> _]. now rewrite D.
Qed.

Lemma same_view_push s1 s2 :
  same_view s1 s2 -> same_view (push s1) (push s2).
Proof.
  intros (D & N & A & L & Lo). repeat split; try assumption.
  change (last s1 :: active s1 = last s2 :: active s2). now rewrite A, L.
Qed.

Lemma same_view_pop s1 s2 :
  same_view s1 s2 -> same_view (pop s1) (pop s2).
Proof.
  intros (D & N & A & L & Lo). repeat split; try assumption.
  change (tl (active s1) = tl (active s2)). now rewrite A.
Qed.

Lemma same_view_emit e1 e2 s1 s2 :
  same_view s1 s2 -> same_view (emit e1 s1) (emit e2 s2).
Proof. intros (D & N & A & L & Lo). repeat split; assumption. Qed.
End Renderer.

(** *** Packing a gradient into a colour *)















(** ** Properties that relate two configurations *)

Lemma same_view_pixels N1 N2 evalF evalG undef_u32 r s1 s2 :
  same_view s1 s2 ->
  same_view (pixels N1 evalF evalG undef_u32 r s1)
            (pixels N2 evalF evalG undef_u32 r s2).
Proof.
  intros (D & N & A & L & Lo).
  destruct (pixels_frame 0 N1 evalF evalG undef_u32 (fun _ => false) r s1)
    as (_ & A1 & L1 & Lo1).
  destruct (pixels_frame 0 N2 evalF evalG undef_u32 (fun _ => false) r s2)
    as (_ & A2 & L2 & Lo2).
  repeat split; try congruence; intros y x.
  - destruct (pixels_exact N1 evalF evalG undef_u32 r s1 y x) as [-> _].
    destruct (pixels_exact N2 evalF evalG undef_u32 r s2 y x) as [-> _].
    now rewrite D, A.
  - destruct (pixels_exact N1 evalF evalG undef_u32 r s1 y x) as [_ ->].
    destruct (pixels_exact N2 evalF evalG undef_u32 r s2 y x) as [_ ->].
    now rewrite D, N, A.
Qed.

Lemma same_view_recurse W N1 N2 evalF evalI evalG undef_u32 abort n :
  forall r s1 s2, same_view s1 s2 ->
    same_view (recurse_fuel W N1 evalF evalI evalG undef_u32 abort n r s1)
              (recurse_fuel W N2 evalF evalI evalG undef_u32 abort n r s2).
Proof.
  induction n as [|n IH]; intros r s1 s2 H; [assumption |].
  cbn [recurse_fuel]. rewrite !recurse_body_cases.
  pose proof (same_view_entered abort r H) as He.
  pose proof (same_view_evaluated evalI abort r H) as Hv.
  rewrite <- (same_view_occluded r He).
  destruct H as (_ & _ & A & _ & Lo). unfold bound. rewrite <- A, <- Lo.
  destruct (abort (loads s1)); [exact He |].
  destruct (occluded r (entered abort r s1)); [exact He |].
  destruct (voxels r <=? W); [now apply same_view_pixels |].
  destruct (upper _ <? 0)%Z; [now apply same_view_fill |].
  destruct (lower _ <=? 0)%Z; [|exact Hv].
  destruct (canSplit r).
  - now apply same_view_pop, IH, IH, same_view_push.
  - now apply same_view_emit, same_view_push.
Qed.

(** X12: the capacity [NUM_POINTS] of the gradient batches is a matter of
    speed only: two renders that differ in nothing but a positive capacity
    return the same depth image and the same normal image, pixel by pixel,
    whatever the cancellation flag does. *)
Theorem gradient_batching_is_transparent
  W N1 N2 evalF evalI evalG undef_u32 abort :
  0 < N1 -> 0 < N2 ->
  forall r clip s y x,
    depth (Render W N1 evalF evalI evalG undef_u32 abort r clip s) y x =
    depth (Render W N2 evalF evalI evalG undef_u32 abort r clip s) y x /\
    norm (Render W N1 evalF evalI evalG undef_u32 abort r clip s) y x =
    norm (Render W N2 evalF evalI evalG undef_u32 abort r clip s) y x.
Proof.
  intros _ _ r clip s y x. unfold Render.
  set (s0 := set_norm (fun _ _ => 0%Z) (set_depth (fun _ _ => NegInf) s)).
  assert (H : same_view
                (recurse W N1 evalF evalI evalG undef_u32 abort r s0)
                (recurse W N2 evalF evalI evalG undef_u32 abort r s0))
    by (apply same_view_recurse; repeat split).
  destruct H as (D & N & _).
  set (t1 := recurse W N1 evalF evalI evalG undef_u32 abort r s0) in *.
  set (t2 := recurse W N2 evalF evalI evalG undef_u32 abort r s0) in *.
  clearbody t1 t2.
  destruct clip; cbn [depth norm set_norm]; rewrite ?D, ?N; split;
    reflexivity.
Qed.

(** ** The renderer on concrete scenes *)

Lemma staging_never_overflows_witness :
  (forall r s,
     emits (staged_below_capacity 2) s
           (pixels 2 (slab_F 4) up_G zero_u32 r s)) /\
  (forall r clip s,
     emits (staged_below_capacity 2) s
           (Render 4 2 (slab_F 4) (slab_I 4) up_G zero_u32 never r clip s)).
Proof.
  apply (staging_never_overflows 4 (slab_F 4) (slab_I 4) up_G zero_u32 never).
  - lia.
  - unfold Result.lanes. lia.
Defined.

Lemma slab_sound h : sound (slab_F h) (slab_I h).
Proof.
  intros act b x y z (_ & _ & Hz) _. unfold slab_F, slab_I, within in *.
  cbn [lower upper]. lia.
Qed.

Lemma slab_neutral h : neutral (slab_F h).
Proof. intros act x y z _. reflexivity. Qed.

Lemma post_sound h : sound (post_F h) (post_I h).
Proof.
  intros act b x y z (Hx & _ & Hz) _. unfold post_F, post_I, within in *.
  destruct (upper (fst (fst b)) <=? 2)%Z eqn:E1; cbn [lower upper].
  - apply Z.leb_le in E1.
    assert (E2 : (x <=? 2)%Z = true) by (apply Z.leb_le; lia).
    rewrite E2. lia.
  - destruct (x <=? 2)%Z; lia.
Qed.

Lemma never_unset : forall n, never n = false.
Proof. reflexivity. Qed.

Lemma from_sticky n : sticky (from n).
Proof.
  unfold sticky, from. intros m k Hmk H. apply Nat.leb_le in H.
  apply Nat.leb_le. lia.
Qed.

Lemma grid_upright nx ny nz : upright (grid nx ny nz).
Proof. unfold upright, grid, axis. cbn. lia. Qed.

Lemma adaptive_depth_is_exhaustive_witness :
  let d := depth (Render 4 2 (slab_F 4) (slab_I 4) up_G zero_u32 never
                         (grid 2 2 4) false start) in
  d 0 0 = exhaustive_depth (slab_F 4) (grid 2 2 4) 0 0 /\
  d 1 1 = exhaustive_depth (slab_F 4) (grid 2 2 4) 1 1 /\
  d 2 2 = exhaustive_depth (slab_F 4) (grid 2 2 4) 2 2.
Proof.
  assert (H : forall y x,
    depth (Render 4 2 (slab_F 4) (slab_I 4) up_G zero_u32 never
                  (grid 2 2 4) false start) y x
    = exhaustive_depth (slab_F 4) (grid 2 2 4) y x).
  { apply (@adaptive_depth_is_exhaustive 4 2 (slab_F 4) (slab_I 4) up_G
             zero_u32 never (slab_sound 4) (slab_neutral 4)).
    - lia.
    - exact never_unset.
    - apply grid_upright.
    - intros b Hb. destruct Hb. }
  repeat split; apply H.
Defined.

(** C1 fails as stated: on a solid block, rendered with a sound and neutral
    evaluator, the opaque fill resolves every pixel without computing a
    gradient, so the adaptive normal image is empty where exhaustive
    evaluation stores a colour. *)
Lemma adaptive_normals_are_not_exhaustive :
  let n := norm (Render 4 2 (slab_F 100) (slab_I 100) up_G zero_u32 never
                        (grid 2 2 4) false start) in
  sound (slab_F 100) (slab_I 100) /\ neutral (slab_F 100) /\
  n 0 0 = 0%Z /\
  exhaustive_norm (slab_F 100) up_G zero_u32 (grid 2 2 4) 0 0 = PLUS_Z /\
  n 0 0 <> exhaustive_norm (slab_F 100) up_G zero_u32 (grid 2 2 4) 0 0.
Proof.
  split; [apply slab_sound |]. split; [apply slab_neutral |].
  repeat split; vm_compute; congruence.
Qed.

Lemma interior_region_classified_witness :
  let r := grid 2 2 4 in
  let s1 := evaluated (slab_I 4) never r start in
  let skipped := recurse 4 2 (slab_F 4) (fixed_I 5 3) up_G zero_u32 never in
  let filled := recurse 4 2 (slab_F 4) (fixed_I 5 (-5)) up_G zero_u32 never in
  ((trace s1 = trace start ++ [Enter r; Load false; EvalInterval r] /\
    depth s1 = depth start /\ norm s1 = norm start) /\
   recurse 4 2 (slab_F 4) (slab_I 4) up_G zero_u32 never r start =
     pop (recurse 4 2 (slab_F 4) (slab_I 4) up_G zero_u32 never
            (fst (split r))
            (recurse 4 2 (slab_F 4) (slab_I 4) up_G zero_u32 never
                     (snd (split r)) (push s1)))) /\
  skipped r start = evaluated (fixed_I 5 3) never r start /\
  (filled r start = fill r (evaluated (fixed_I 5 (-5)) never r start) /\
   depth (filled r start) 0 0 = Fin (top r)).
Proof.
  intros r s1 skipped filled. split; [|split].
  - destruct (@interior_region_classified 4 2 (slab_F 4) (slab_I 4) up_G
                zero_u32 never r start)
      as (H1 & _ & _ & H4).
    + lia.
    + reflexivity.
    + reflexivity.
    + vm_compute. lia.
    + split; [exact H1 |]. apply H4; vm_compute; discriminate.
  - destruct (@interior_region_classified 4 2 (slab_F 4) (fixed_I 5 3) up_G
                zero_u32 never r start)
      as (_ & _ & H3 & _).
    + lia.
    + reflexivity.
    + reflexivity.
    + vm_compute. lia.
    + apply H3; vm_compute; [discriminate | reflexivity].
  - destruct (@interior_region_classified 4 2 (slab_F 4) (fixed_I 5 (-5))
                up_G zero_u32 never r start)
      as (_ & H2 & _ & _).
    + lia.
    + reflexivity.
    + reflexivity.
    + vm_compute. lia.
    + destruct H2 as (E & _ & _ & D); [vm_compute; reflexivity |].
      split; [exact E |]. rewrite D. reflexivity.
Defined.

(** C3 fails as stated: in the render of a post standing on a slab, the
    lower half of the region is an interior region with a strictly negative
    interval whose footprint holds a pixel already resolved higher up; after
    the fill that pixel is not at the region's highest voxel centre. *)
Lemma fill_keeps_nearer_pixels :
  let root := grid 2 1 8 in
  let r := fst (split root) in
  let s := recurse 2 2 (post_F 9) (post_I 9) up_G zero_u32 never
                   (snd (split root))
                   (push (evaluated (post_I 9) never root start)) in
  let s' := recurse 2 2 (post_F 9) (post_I 9) up_G zero_u32 never r s in
  sound (post_F 9) (post_I 9) /\
  never (loads s) = false /\
  occluded r (entered never r s) = false /\
  2 < voxels r /\
  (upper (bound (post_I 9) r s) < 0)%Z /\
  in_block (min (Y r)) (min (X r)) (size (Y r)) (size (X r)) 0 0 = true /\
  top r = 7%Z /\
  depth s' 0 0 = Fin 15 /\
  depth s' 0 0 <> Fin (top r).
Proof.
  split; [apply post_sound |].
  vm_compute. repeat split; try reflexivity; try lia; congruence.
Qed.

(** C4 fails as stated: a pixel resolved by a per-voxel crossing at the top
    of the region, in a render without any opaque fill, has its computed
    normal replaced by the +Z-facing colour. *)
Lemma clip_overrides_computed_normals :
  let r := grid 1 1 2 in
  let t := Render 4 2 (slab_F 4) (slab_I 4) side_G zero_u32 never r true
                  start in
  let f := Render 4 2 (slab_F 4) (slab_I 4) side_G zero_u32 never r false
                  start in
  depth t 0 0 = Fin (top r) /\
  trace t = [Enter r; Load false; EvalVoxels r; WriteDepth 0 0 NegInf 3;
             SetPoint 0; EvalGradients 1; WriteNormal 0 0 0xff7f7fff] /\
  (forall q, ~ In (Fill q) (trace t)) /\
  norm f 0 0 = 0xff7f7fff%Z /\
  norm t 0 0 = PLUS_Z /\
  norm t 0 0 <> norm f 0 0.
Proof.
  vm_compute. repeat split; try congruence.
  intros q H. repeat (destruct H as [H | H]; [discriminate |]). exact H.
Qed.



(** C6 (evaluated at the failing input): for the zero gradient the length is
    zero, the quotient [0 / (2 * 0)] is NaN and reaches the conversion to
    [uint32_t], for which no value is defined; the colour written to the
    normal image of a render is whatever the platform makes of that
    conversion. *)
Theorem zero_gradient_is_not_guarded :
  let g := Pack.mkGradient 0 0 0 in
  Prim2SF (Pack.length g) = S754_zero false /\
  Prim2SF (Pack.scaled (Pack.dx g) (Pack.length g)) = S754_nan /\
  Pack.to_uint32 (Pack.scaled (Pack.dx g) (Pack.length g)) = None /\
  Pack.pack g = None /\
  forall undef,
    norm (Render 4 2 (slab_F 4) (slab_I 4) flat_G undef never (grid 1 1 2)
                 false start) 0 0
    = Pack.combine (Pack.wrap32 (undef nan)) (Pack.wrap32 (undef nan))
                   (Pack.wrap32 (undef nan)).
Proof. repeat split. Qed.

Lemma cancelled_calls_leave_the_images_witness :
  let r := grid 2 2 4 in
  let rec := recurse 4 2 (slab_F 4) (slab_I 4) up_G zero_u32 (from 0) in
  let R := Render 4 2 (slab_F 4) (slab_I 4) up_G zero_u32 (from 3) r true in
  (rec r start = entered (from 0) r start /\
   depth (rec r start) = depth start /\ norm (rec r start) = norm start) /\
  (exists pre post,
     trace (R start) = trace start ++ pre ++ post /\
     Forall unset pre /\ Forall quiet post /\
     depth (R start) = replay_all_depth pre (fun _ _ => NegInf) /\
     forall y x,
       norm (R start) y x =
         if true && eqb (replay_all_depth pre (fun _ _ => NegInf) y x) (top r)
         then PLUS_Z
         else replay_all_norm pre (fun _ _ => 0%Z) y x).
Proof.
  intros r rec R. split.
  - apply (proj1 (@cancelled_calls_leave_the_images 4 2 (slab_F 4) (slab_I 4)
                    up_G zero_u32 (from 0))). reflexivity.
  - apply (proj1 (proj2 (@cancelled_calls_leave_the_images 4 2 (slab_F 4)
                           (slab_I 4) up_G zero_u32 (from 3)))).
    apply from_sticky.
Defined.

(** A render of a post on a slab, cancelled at the sixth read of the flag
    and clipped: the first pixel returns the +Z colour, which is neither the
    empty normal nor the normal computed for it before the cancellation. *)
Lemma cancelled_render_is_still_clipped :
  let r := grid 2 1 8 in
  let R := Render 2 2 (post_F 9) (post_I 9) side_G zero_u32 (from 5) r true
                  start in
  sound (post_F 9) (post_I 9) /\ sticky (from 5) /\
  In (Load true) (trace R) /\
  (forall row col v, In (WriteNormal row col v) (trace R) ->
     row = 0 /\ col = 0 /\ v = 0xff7f7fff%Z) /\
  replay_all_norm (trace R) (fun _ _ => 0%Z) 0 0 = 0xff7f7fff%Z /\
  depth R 0 0 = Fin (top r) /\
  norm R 0 0 = PLUS_Z /\
  norm R 0 0 <> 0%Z /\ norm R 0 0 <> 0xff7f7fff%Z.
Proof.
  intros r R.
  split; [apply post_sound |]. split; [apply from_sticky |].
  split; [vm_compute; do 24 right; left; reflexivity |].
  split.
  { assert (Hb : forallb
                   (fun e => match e with
                             | WriteNormal row col v =>
                                 Nat.eqb row 0 && Nat.eqb col 0
                                 && Z.eqb v 0xff7f7fff
                             | _ => true
                             end) (trace R) = true)
      by (vm_compute; reflexivity).
    intros row col v H. rewrite forallb_forall in Hb.
    specialize (Hb _ H). cbv beta iota in Hb.
    apply andb_true_iff in Hb as [Hb Hv].
    apply andb_true_iff in Hb as [Hr Hc].
    apply Nat.eqb_eq in Hr, Hc. apply Z.eqb_eq in Hv.
    repeat split; assumption. }
  vm_compute. repeat split; congruence.
Qed.


Lemma render_is_deterministic_witness :
  let R := Render 4 2 (slab_F 4) (slab_I 4) up_G zero_u32 never (grid 2 2 4)
                  true in
  depth (R (R start)) = depth (R start) /\ norm (R (R start)) = norm (R start).
Proof.
  intros R.
  apply (proj2 (@render_is_deterministic 4 2 (slab_F 4) (slab_I 4) up_G
                  zero_u32 never never_unset)).
  lia.
Defined.

(** *** Instances of the further properties *)

(** One leaf evaluation of a slab below the height 4: the column of pixel
    [(1, 1)] is resolved at its second voxel. *)
Lemma pixels_resolves_columns_witness :
  let p := pixels 2 (slab_F 4) up_G zero_u32 (grid 2 2 4) start in
  (0 <= hstep (Z (grid 2 2 4)))%Z /\
  depth p 1 1 = Fin 3 /\ norm p 1 1 = PLUS_Z.
Proof.
  intros p.
  assert (H : (0 <= hstep (Z (grid 2 2 4)))%Z) by (simpl; lia).
  pose proof (@pixels_resolves_columns 2 (slab_F 4) up_G zero_u32
                (grid 2 2 4) start 1 1 H) as R.
  cbv zeta in R. destruct R as [D N].
  split; [exact H |]. subst p. rewrite D, N. split; vm_compute; reflexivity.
Defined.

(** A second call on a region whose footprint starts at the third pixel
    column leaves the first pixel of a rendered image alone. *)
Lemma recurse_stays_in_footprint_witness :
  let rec := recurse 4 2 (slab_F 4) (slab_I 4) up_G zero_u32 never in
  let s := rec (grid 2 2 4) start in
  let r := mkRegion (mkRange 0 1 2 2) (axis 2) (axis 4) in
  footprint r 0 0 = false /\
  depth (rec r s) 0 0 = depth s 0 0 /\ norm (rec r s) 0 0 = norm s 0 0.
Proof.
  intros rec s r. split; [reflexivity |].
  apply (@recurse_stays_in_footprint 4 2 (slab_F 4) (slab_I 4) up_G zero_u32
           never r s). reflexivity.
Defined.

(** Nothing lies below the height 0. *)
Lemma unseen_pixels_have_no_normal_witness :
  let R := Render 4 2 (slab_F 0) (slab_I 0) up_G zero_u32 never (grid 2 2 4)
                  true start in
  depth R 1 1 = NegInf /\ norm R 1 1 = 0%Z.
Proof.
  intros R.
  assert (H : depth R 1 1 = NegInf) by (vm_compute; reflexivity).
  split; [exact H |].
  apply (@unseen_pixels_have_no_normal 4 2 (slab_F 0) (slab_I 0) up_G
           zero_u32 never (grid 2 2 4) true start 1 1). exact H.
Defined.

(** A region without rows. *)
Lemma empty_region_changes_nothing_witness :
  let rec := recurse 4 2 (slab_F 4) (slab_I 4) up_G zero_u32 never in
  voxels (grid 2 0 4) = 0 /\
  depth (rec (grid 2 0 4) start) 0 0 = depth start 0 0 /\
  norm (rec (grid 2 0 4) start) 0 0 = norm start 0 0.
Proof.
  intros rec. split; [reflexivity |].
  apply (@empty_region_changes_nothing 4 2 (slab_F 4) (slab_I 4) up_G
           zero_u32 never (grid 2 0 4) start). reflexivity.
Defined.

(** A render cancelled at the fourth read of the flag. *)
Lemma partial_depth_is_below_exhaustive_witness :
  le (depth (Render 4 2 (slab_F 4) (slab_I 4) up_G zero_u32 (from 3)
                    (grid 2 2 4) true start) 1 1)
     (exhaustive_depth (slab_F 4) (grid 2 2 4) 1 1).
Proof.
  apply (@partial_depth_is_below_exhaustive 4 2 (slab_F 4) (slab_I 4) up_G
           zero_u32 (from 3) (slab_sound 4) (slab_neutral 4)).
  - lia.
  - apply grid_upright.
  - intros b Hb. destruct Hb.
Defined.

Lemma evaluator_stays_within_batches_witness :
  emits (within_batches 4 2) start
        (Render 4 2 (slab_F 4) (slab_I 4) up_G zero_u32 never (grid 2 2 4)
                true start).
Proof.
  apply (@evaluator_stays_within_batches 4 2 (slab_F 4) (slab_I 4) up_G
           zero_u32 never); lia.
Defined.

Lemma render_makes_few_calls_witness :
  exists evs,
    trace (Render 4 2 (slab_F 4) (slab_I 4) up_G zero_u32 never (grid 2 2 4)
                  true start) = trace start ++ evs /\
    calls evs <= Nat.max 1 (2 * voxels (grid 2 2 4) - 1).
Proof.
  apply (@render_makes_few_calls 4 2 (slab_F 4) (slab_I 4) up_G zero_u32
           never). lia.
Defined.

(** A depth image that is at the top of the region everywhere. *)
Lemma occluded_region_has_nothing_to_add_witness :
  let s := set_depth (fun _ _ => Fin 7) start in
  let p := pixels 2 (slab_F 4) up_G zero_u32 (grid 2 2 4) s in
  (0 <= hstep (Z (grid 2 2 4)))%Z /\ occluded (grid 2 2 4) s = true /\
  depth p 1 1 = depth s 1 1 /\ norm p 1 1 = norm s 1 1.
Proof.
  intros s p.
  assert (H : (0 <= hstep (Z (grid 2 2 4)))%Z) by (simpl; lia).
  split; [exact H |]. split; [reflexivity |].
  apply (@occluded_region_has_nothing_to_add 2 (slab_F 4) up_G zero_u32
           (grid 2 2 4) s H). reflexivity.
Defined.

Lemma depth_never_exceeds_the_top_witness :
  le (depth (Render 4 2 (slab_F 4) (slab_I 4) up_G zero_u32 (from 3)
                    (grid 2 2 4) false start) 0 0)
     (Fin (top (grid 2 2 4))).
Proof.
  apply (@depth_never_exceeds_the_top 4 2 (slab_F 4) (slab_I 4) up_G
           zero_u32 (from 3)). apply grid_upright.
Defined.

(** Gradient batches of one point and of three points. *)
Lemma gradient_batching_is_transparent_witness :
  let R n := Render 4 n (slab_F 4) (slab_I 4) up_G zero_u32 never
                    (grid 2 2 4) true start in
  depth (R 1) 1 1 = depth (R 3) 1 1 /\ norm (R 1) 1 1 = norm (R 3) 1 1.
Proof.
  intros R.
  apply (@gradient_batching_is_transparent 4 1 3 (slab_F 4) (slab_I 4) up_G
           zero_u32 never); lia.
Defined.

Lemma depths_are_voxel_centres_witness :
  let R := Render 4 2 (slab_F 4) (slab_I 4) up_G zero_u32 never (grid 2 2 4)
                  false start in
  depth R 1 1 = Fin 3 /\
  exists k, k < size (Z (grid 2 2 4)) /\ 3%Z = pos (Z (grid 2 2 4)) k.
Proof.
  intros R.
  assert (H : depth R 1 1 = Fin 3) by (vm_compute; reflexivity).
  split; [exact H |].
  exact (@depths_are_voxel_centres 4 2 (slab_F 4) (slab_I 4) up_G zero_u32
           never (grid 2 2 4) false start 1 1 3%Z H).
Defined.

End Heightmap.
